(** * Density-matrix state class of the Aer simulator

    A shallow embedding of
    [src/simulators/density_matrix/densitymatrix_state.hpp]: the class
    [AER::DensityMatrix::State<densmat_t>], which dispatches circuit
    operations onto a vectorised density-matrix buffer.

    The class is a template over the buffer type; the buffer, the classical
    register, the random-number engine, the result sink and the free helper
    functions of [Utils], [Chunk], [QV] and [Linalg] live in other headers.
    They appear here as interfaces (type classes), exactly the calls that the
    source makes on them.  Kernels and collaborators are taken to complete:
    an exception raised inside one of them is outside this file. *)

From Stdlib Require Import ZArith Lia PrimFloat Ascii Reals FunctionalExtensionality.
From stdpp Require Import base option list list_numbers sorting strings gmap.

Local Open Scope Z_scope.

(** ** Machine integers

    [uint_t] and [size_t] are 64-bit unsigned; a value is a [Z] in
    [0, 2^64) and every arithmetic operation of the source wraps. Shift
    counts of 64 or more are undefined in C++; the model wraps the
    mathematical result. *)

Abbreviation uint_t := Z.
Abbreviation reg_t := (list uint_t).

Definition wrap64 (z : Z) : uint_t := z mod 2 ^ 64.
Definition uadd (a b : uint_t) : uint_t := wrap64 (a + b).
Definition usub (a b : uint_t) : uint_t := wrap64 (a - b).
Definition umul (a b : uint_t) : uint_t := wrap64 (a * b).
Definition ushl (a s : uint_t) : uint_t := wrap64 (Z.shiftl a s).
Definition ushr (a s : uint_t) : uint_t := Z.shiftr a s.

(** [v.size()] *)
Definition usize {A} (v : list A) : uint_t := Z.of_nat (length v).

(** [v[i]] as an rvalue and [v[i] = x]: [None] when [i] is not an index of
    [v], which is undefined behaviour for [std::vector]. *)
Definition vec_at {A} (v : list A) (i : uint_t) : option A :=
  if bool_decide (0 ≤ i) then v !! Z.to_nat i else None.

Definition vec_set {A} (v : list A) (i : uint_t) (x : A) : option (list A) :=
  if bool_decide (0 ≤ i < usize v) then Some (<[Z.to_nat i := x]> v) else None.

(** ** Scalars: [double] and [std::complex<double>] *)

Record complex_t := Cplx { Re : float; Im : float }.
Abbreviation cvector_t := (list complex_t).
Abbreviation rvector_t := (list float).

Definition complex_of_real (x : float) : complex_t := Cplx x 0%float.
(** conversion of a (small) [int] to [double] *)
Fixpoint float_of_pos (p : positive) : float :=
  match p with
  | xH => 1%float
  | xO q => (2 * float_of_pos q)%float
  | xI q => (2 * float_of_pos q + 1)%float
  end.
Definition float_of_int (z : Z) : float :=
  match z with
  | Z0 => 0%float
  | Zpos p => float_of_pos p
  | Zneg p => PrimFloat.opp (float_of_pos p)
  end.
Definition complex_of_int (z : Z) : complex_t := complex_of_real (float_of_int z).
Definition C0 : complex_t := complex_of_real 0%float.
Definition C1 : complex_t := complex_of_real 1%float.
Definition Cadd (a b : complex_t) : complex_t :=
  Cplx (Re a + Re b)%float (Im a + Im b)%float.

(** [M_PI] of [math.h] *)
Definition M_PI : float := 0x1.921fb54442d18p+1%float.

(** [matrix<complex_t>]: dimensions and the column-major data array. *)
Record cmatrix_t := Matrix { GetRows : uint_t; GetColumns : uint_t; mat_data : cvector_t }.

(** [cmatrix_t(rows, cols)] and [cmatrix_t(rows, cols, false)]: a freshly
    allocated array of [rows * cols] cells. With [fill = false] the source
    leaves the cells indeterminate; the model puts zero there. *)
Definition cmatrix_new (rows cols : uint_t) : cmatrix_t :=
  Matrix rows cols (replicate (Z.to_nat (umul rows cols)) C0).

(** ** Operations ([framework/operations.hpp])

    The enumerations are declared outside this file. The enumerators the
    source names are listed; [other] stands for the rest. *)

Module OpType.
Inductive t :=
| gate | measure | reset | bfunc | barrier | qerror_loc
| matrix | diagonal_matrix | kraus | superop | roerror
| save_state | save_expval | save_expval_var | save_densmat
| save_probs | save_probs_ket | save_amps_sq
| set_statevec | set_densmat
| jump | mark
| other (tag : nat).
End OpType.

Module DataSubType.
Inductive t := single | c_single | average | c_average | other (tag : nat).
End DataSubType.

Record Op := mkOp {
  op_type : OpType.t;
  op_name : string;
  op_qubits : reg_t;
  op_params : cvector_t;
  op_int_params : reg_t;
  op_string_params : list string;
  op_mats : list cmatrix_t;
  op_memory : reg_t;
  op_registers : reg_t;
  op_save_type : DataSubType.t
}.

(** Allowed gates enum class *)
Module Gates.
Inductive t :=
| u1 | u2 | u3 | r | rx | ry | rz | id | x | y | z | h | s | sdg
| sx | sxdg | t_ | tdg | cx | cy | cz | swap | rxx | ryy | rzz | rzx
| ccx | cp | pauli | ecr.
End Gates.

(** Table of allowed gate names to gate enum class members *)
Definition gateset_ : gmap string Gates.t :=
  list_to_map
    [ ("delay", Gates.id); ("id", Gates.id); ("x", Gates.x); ("y", Gates.y);
      ("z", Gates.z); ("s", Gates.s); ("sdg", Gates.sdg); ("h", Gates.h);
      ("t", Gates.t_); ("tdg", Gates.tdg); ("x90", Gates.sx); ("sx", Gates.sx);
      ("sxdg", Gates.sxdg); ("r", Gates.r); ("rx", Gates.rx); ("ry", Gates.ry);
      ("rz", Gates.rz);
      ("p", Gates.u1); ("u1", Gates.u1); ("u2", Gates.u2); ("u3", Gates.u3);
      ("u", Gates.u3); ("U", Gates.u3);
      ("CX", Gates.cx); ("cx", Gates.cx); ("cy", Gates.cy); ("cz", Gates.cz);
      ("cp", Gates.cp); ("cu1", Gates.cp); ("swap", Gates.swap);
      ("rxx", Gates.rxx); ("ryy", Gates.ryy); ("rzz", Gates.rzz);
      ("rzx", Gates.rzx); ("ecr", Gates.ecr);
      ("ccx", Gates.ccx);
      ("pauli", Gates.pauli) ]%string.

(** OpSet of supported instructions *)
Definition StateOpSet_optypes : list OpType.t :=
  [ OpType.gate; OpType.measure; OpType.reset;
    OpType.barrier; OpType.bfunc; OpType.qerror_loc;
    OpType.roerror; OpType.matrix; OpType.diagonal_matrix;
    OpType.kraus; OpType.superop; OpType.set_statevec;
    OpType.set_densmat; OpType.save_expval; OpType.save_expval_var;
    OpType.save_densmat; OpType.save_probs; OpType.save_probs_ket;
    OpType.save_amps_sq; OpType.save_state; OpType.jump;
    OpType.mark ].
Definition StateOpSet_gates : list string :=
  [ "U"; "CX"; "u1"; "u2"; "u3"; "u"; "cx"; "cy"; "cz"; "swap";
    "id"; "x"; "y"; "z"; "h"; "s"; "sdg"; "t"; "tdg"; "ccx";
    "r"; "rx"; "ry"; "rz"; "rxx"; "ryy"; "rzz"; "rzx"; "p"; "cp";
    "cu1"; "sx"; "sxdg"; "x90"; "delay"; "pauli"; "ecr" ]%string.

(** ** Outcomes of a call

    A member function either returns, or leaves by [throw] (the source only
    throws [std::invalid_argument]), or steps outside defined behaviour
    (an element access past the end of a vector). The state reached is kept
    in both of the first two cases: an exception does not undo earlier
    writes. [OutOfFuel] belongs to the recursion bound of [apply_gate]. *)

Inductive exn := invalid_argument (what : string).

Inductive outcome (S A : Type) : Type :=
| Ok (a : A) (s : S)
| Throw (e : exn) (s : S)
| Undefined
| OutOfFuel.
Arguments Ok {S A} a s.
Arguments Throw {S A} e s.
Arguments Undefined {S A}.
Arguments OutOfFuel {S A}.

Definition M (S A : Type) : Type := S → outcome S A.

Definition ret {S A} (a : A) : M S A := λ s, Ok a s.
Definition bind {S A B} (m : M S A) (k : A → M S B) : M S B :=
  λ s, match m s with
       | Ok a s' => k a s'
       | Throw e s' => Throw e s'
       | Undefined => Undefined
       | OutOfFuel => OutOfFuel
       end.
Definition throw {S A} (e : exn) : M S A := λ s, Throw e s.
Definition undefined {S A} : M S A := λ _, Undefined.
Definition gets {S A} (f : S → A) : M S A := λ s, Ok (f s) s.
Definition modify {S} (f : S → S) : M S unit := λ s, Ok tt (f s).
(** an element access: defined only inside the vector *)
Definition access {S A} (o : option A) : M S A :=
  match o with Some a => ret a | None => undefined end.

Notation "'do' x <- c1 ; c2" := (bind c1 (λ x, c2))
  (at level 10, x name, c1 at level 100, c2 at level 200).
Notation "'do' ' p <- c1 ; c2" := (bind c1 (λ x, match x with p => c2 end))
  (at level 10, p pattern, c1 at level 100, c2 at level 200).
Notation "c1 ;; c2" := (bind c1 (λ _, c2))
  (at level 100, c2 at level 200, right associativity).

(** [for (x : xs) body(x)] *)
Fixpoint for_each {S A} (xs : list A) (body : A → M S unit) : M S unit :=
  match xs with
  | [] => ret tt
  | x :: xs' => body x ;; for_each xs' body
  end.

(** a loop that carries a local variable *)
Fixpoint for_fold {S A B} (xs : list A) (body : B → A → M S B) (b : B) : M S B :=
  match xs with
  | [] => ret b
  | x :: xs' => do b' <- body b x; for_fold xs' body b'
  end.

(** ** The collaborators *)

(** Payloads handed to [ExperimentResult::save_data_average]. *)
Abbreviation ket_t := (list (string * float)).
Inductive save_payload :=
| payload_rvector (v : rvector_t)
| payload_ket (k : ket_t)
| payload_cmatrix (m : cmatrix_t).

(** The vectorised density-matrix buffer [densmat_t]
    ([densitymatrix.hpp]): the member functions that the state class calls
    on [BaseState::qreg_]. The first group reads the buffer, the second
    updates it. *)
Class DensityMatrix (densmat_t : Type) := {
  qreg_num_qubits : densmat_t → uint_t;
  qreg_chunk_index : densmat_t → uint_t;
  qreg_support_global_indexing : densmat_t → bool;
  qreg_trace : densmat_t → float;
  qreg_probabilities : densmat_t → reg_t → rvector_t;
  qreg_probability : densmat_t → uint_t → float;
  qreg_vector : densmat_t → cvector_t;
  qreg_copy_to_matrix : densmat_t → cmatrix_t;
  qreg_superop_qubits : densmat_t → reg_t → reg_t;
  qreg_sample_measure : densmat_t → rvector_t → reg_t;
  qreg_expval_pauli : densmat_t → reg_t → string → float;

  qreg_move_to_matrix : densmat_t → cmatrix_t * densmat_t;
  qreg_initialize_from_vector : cvector_t → densmat_t → densmat_t;
  qreg_initialize_from_matrix : cmatrix_t → densmat_t → densmat_t;
  qreg_apply_superop_matrix : reg_t → cvector_t → densmat_t → densmat_t;
  qreg_apply_unitary_matrix : reg_t → cvector_t → densmat_t → densmat_t;
  qreg_apply_diagonal_unitary_matrix : reg_t → cvector_t → densmat_t → densmat_t;
  qreg_apply_diagonal_matrix : reg_t → cvector_t → densmat_t → densmat_t;
  qreg_apply_cnot : uint_t → uint_t → densmat_t → densmat_t;
  qreg_apply_cy : uint_t → uint_t → densmat_t → densmat_t;
  qreg_apply_cphase : uint_t → uint_t → complex_t → densmat_t → densmat_t;
  qreg_apply_swap : uint_t → uint_t → densmat_t → densmat_t;
  qreg_apply_x : uint_t → densmat_t → densmat_t;
  qreg_apply_y : uint_t → densmat_t → densmat_t;
  qreg_apply_toffoli : uint_t → uint_t → uint_t → densmat_t → densmat_t;
  qreg_apply_mcx : reg_t → densmat_t → densmat_t;
  qreg_apply_mcy : reg_t → densmat_t → densmat_t;
  qreg_apply_mcphase : reg_t → complex_t → densmat_t → densmat_t;
  qreg_apply_pauli : reg_t → string → complex_t → densmat_t → densmat_t;
  qreg_apply_reset : reg_t → densmat_t → densmat_t
}.

(** [RngEngine]: [rand(a, b)] and [rand_int(probs)]. *)
Class RngEngine (rng_t : Type) := {
  rng_rand : float → float → rng_t → float * rng_t;
  rng_rand_int : rvector_t → rng_t → uint_t * rng_t
}.

(** [ClassicalRegister], reached through [BaseState::creg()]. *)
Class ClassicalRegister (creg_t rng_t : Type) := {
  creg_check_conditional : creg_t → Op → bool;
  creg_apply_bfunc : Op → creg_t → creg_t;
  creg_apply_roerror : Op → creg_t * rng_t → creg_t * rng_t;
  creg_store_measure : reg_t → reg_t → reg_t → creg_t → creg_t
}.

(** [ExperimentResult::save_data_average]. *)
Class ExperimentResult (result_t creg_t : Type) := {
  save_data_average :
    creg_t → string → save_payload → OpType.t → DataSubType.t → result_t → result_t
}.

(** Free functions and constants of [Utils], [Chunk], [QV], [Linalg] and of
    the C++ library that the source calls. [Chunk_get_inout_ctrl_qubits]
    returns the two vectors it fills, [Chunk_block_diagonal_matrix] the two
    it rewrites in place. *)
Class Helpers := {
  Utils_vectorize_matrix : cmatrix_t → cvector_t;
  Utils_tensor_product : cvector_t → cvector_t → cvector_t;
  Utils_conjugate : cvector_t → cvector_t;
  Utils_int2reg : uint_t → uint_t → uint_t → reg_t;
  Utils_vec2ket : rvector_t → float → uint_t → ket_t;
  Utils_kraus_superop : list cmatrix_t → cmatrix_t;
  Chunk_get_inout_ctrl_qubits : Op → uint_t → reg_t * reg_t;
  Chunk_correct_gate_op_in_chunk : Op → reg_t → Op;
  Chunk_block_diagonal_matrix : uint_t → uint_t → reg_t → cvector_t → reg_t * cvector_t;
  QV_indexes : reg_t → reg_t → uint_t → list uint_t;
  VMatrix_SX : cvector_t;
  VMatrix_SXDG : cvector_t;
  VMatrix_ECR : cvector_t;
  VMatrix_u3 : float → float → float → cvector_t;
  VMatrix_r : complex_t → complex_t → cvector_t;
  VMatrix_rx : complex_t → cvector_t;
  VMatrix_ry : complex_t → cvector_t;
  VMatrix_rz_diag : complex_t → cvector_t;
  VMatrix_rxx : complex_t → cvector_t;
  VMatrix_ryy : complex_t → cvector_t;
  VMatrix_rzz_diag : complex_t → cvector_t;
  VMatrix_rzx : complex_t → cvector_t;
  std_exp : complex_t → complex_t;
  std_conj : complex_t → complex_t;
  complex_mul : complex_t → complex_t → complex_t
}.

(** ** The state class *)

(** [int_t]: the signed reading of a 64-bit word *)
Definition to_int_t (z : uint_t) : Z := if bool_decide (z < 2 ^ 63) then z else z - 2 ^ 64.

(** [op.name[0] == 'c' || op.name.find("mc") == 0]; [name[0]] of the empty
    string is the terminating null character. *)
Definition is_ctrl_name (name : string) : bool :=
  match name with
  | String c _ => bool_decide (c = "c"%char) || String.prefix "mc" name
  | EmptyString => false
  end.

(** [std::count(pauli.begin(), pauli.end(), c)] *)
Fixpoint count_char (c : ascii) (s : string) : Z :=
  match s with
  | EmptyString => 0
  | String d s' => (if bool_decide (d = c) then 1 else 0) + count_char c s'
  end.

Section State.
Context {densmat_t creg_t rng_t result_t : Type}.
Context `{!DensityMatrix densmat_t, !RngEngine rng_t,
          !ClassicalRegister creg_t rng_t,
          !ExperimentResult result_t creg_t, !Helpers}.

(** The members of [State] and of its base class that the file reads,
    together with the two objects every call receives by reference
    ([ExperimentResult &result], [RngEngine &rng]). [threads_] and
    [omp_qubit_threshold_] only steer an OpenMP pragma. *)
Record Sim := mkSim {
  qreg_ : densmat_t;
  creg : creg_t;
  num_global_qubits_ : uint_t;
  threads_ : Z;
  omp_qubit_threshold_ : Z;
  json_chop_threshold_ : float;
  result : result_t;
  rng : rng_t
}.

Definition set_qreg (f : densmat_t → densmat_t) (st : Sim) : Sim :=
  mkSim (f (qreg_ st)) (creg st) (num_global_qubits_ st) (threads_ st)
        (omp_qubit_threshold_ st) (json_chop_threshold_ st) (result st) (rng st).
Definition set_creg (f : creg_t → creg_t) (st : Sim) : Sim :=
  mkSim (qreg_ st) (f (creg st)) (num_global_qubits_ st) (threads_ st)
        (omp_qubit_threshold_ st) (json_chop_threshold_ st) (result st) (rng st).
Definition set_result (f : result_t → result_t) (st : Sim) : Sim :=
  mkSim (qreg_ st) (creg st) (num_global_qubits_ st) (threads_ st)
        (omp_qubit_threshold_ st) (json_chop_threshold_ st) (f (result st)) (rng st).
Definition set_rng (r : rng_t) (st : Sim) : Sim :=
  mkSim (qreg_ st) (creg st) (num_global_qubits_ st) (threads_ st)
        (omp_qubit_threshold_ st) (json_chop_threshold_ st) (result st) r.

(** [BaseState::apply_save_expval] is a member of the base class
    ([simulators/state.hpp]). *)
Variable BaseState_apply_save_expval : Op → M Sim unit.

(** a kernel call that updates [qreg_] *)
Definition on_qreg (f : densmat_t → densmat_t) : M Sim unit := modify (set_qreg f).
Definition num_qubits : M Sim uint_t := gets (λ st, qreg_num_qubits (qreg_ st)).
(** [num_global_qubits_ > qreg_.num_qubits() && !qreg_.support_global_indexing()] *)
Definition chunk_id_outside_kernel (st : Sim) : bool :=
  bool_decide (qreg_num_qubits (qreg_ st) < num_global_qubits_ st)
  && negb (qreg_support_global_indexing (qreg_ st)).
Definition rand (a b : float) : M Sim float :=
  λ st, let '(x, g) := rng_rand a b (rng st) in Ok x (set_rng g st).
Definition rand_int (probs : rvector_t) : M Sim uint_t :=
  λ st, let '(x, g) := rng_rand_int probs (rng st) in Ok x (set_rng g st).
Definition save (key : string) (v : save_payload) (t : OpType.t)
    (sub : DataSubType.t) : M Sim unit :=
  modify (λ st, set_result (save_data_average (creg st) key v t sub) st).

Definition move_to_matrix : M Sim cmatrix_t :=
  λ st, let '(m, q) := qreg_move_to_matrix (qreg_ st) in Ok m (set_qreg (λ _, q) st).
Definition copy_to_matrix : M Sim cmatrix_t :=
  gets (λ st, qreg_copy_to_matrix (qreg_ st)).

Definition initialize_from_vector (vec : cvector_t) : M Sim unit :=
  on_qreg (qreg_initialize_from_vector
             (Utils_tensor_product (Utils_conjugate vec) vec)).

(** *** Matrix multiplication *)

Definition apply_diagonal_unitary_matrix (qubits : reg_t) (diag : cvector_t)
    : M Sim unit :=
  λ st,
    let nq := qreg_num_qubits (qreg_ st) in
    if chunk_id_outside_kernel st then
      let '(qubits_in, diag_in) :=
        Chunk_block_diagonal_matrix (qreg_chunk_index (qreg_ st)) nq qubits diag in
      if bool_decide (usize qubits_in = usize qubits) then
        on_qreg (qreg_apply_diagonal_unitary_matrix qubits diag) st
      else
        let qubits_row :=
          (λ q, if bool_decide (nq ≤ q)
                then usub (uadd q (num_global_qubits_ st)) nq else q) <$> qubits in
        let '(_, diag_row) :=
          Chunk_block_diagonal_matrix (qreg_chunk_index (qreg_ st)) nq qubits_row diag in
        let qubits_chunk := qubits_in ++ ((λ q, uadd q nq) <$> qubits_in) in
        on_qreg (qreg_apply_diagonal_matrix qubits_chunk
                   (Utils_tensor_product (Utils_conjugate diag_row) diag_in)) st
    else
      on_qreg (qreg_apply_diagonal_unitary_matrix qubits diag) st.

Definition apply_phase (qubit : uint_t) (phase : complex_t) : M Sim unit :=
  apply_diagonal_unitary_matrix [qubit] [C1; phase].

Definition apply_gate_u3 (qubit : uint_t) (theta phi lambda : float) : M Sim unit :=
  on_qreg (qreg_apply_unitary_matrix [qubit] (VMatrix_u3 theta phi lambda)).

Definition apply_matrix (qubits : reg_t) (mat : cmatrix_t) : M Sim unit :=
  if bool_decide (GetRows mat = 1) then
    apply_diagonal_unitary_matrix qubits (Utils_vectorize_matrix mat)
  else
    on_qreg (qreg_apply_unitary_matrix qubits (Utils_vectorize_matrix mat)).

(** Pauli as a superoperator is (-1)^num_y P\otimes P *)
Definition pauli_coeff (pauli : string) : Z :=
  if bool_decide (count_char "Y" pauli `rem` 2 ≠ 0) then -1 else 1.

Definition apply_pauli (qubits : reg_t) (pauli : string) : M Sim unit :=
  let coeff := complex_of_int (pauli_coeff pauli) in
  λ st, on_qreg (qreg_apply_pauli (qreg_superop_qubits (qreg_ st) qubits)
                   (pauli +:+ pauli) coeff) st.

Definition apply_kraus (qubits : reg_t) (kmats : list cmatrix_t) : M Sim unit :=
  on_qreg (qreg_apply_superop_matrix qubits
             (Utils_vectorize_matrix (Utils_kraus_superop kmats))).

Definition qubit (op : Op) (i : uint_t) : M Sim uint_t := access (vec_at (op_qubits op) i).
Definition param (op : Op) (i : uint_t) : M Sim complex_t := access (vec_at (op_params op) i).
Definition imag_unit : complex_t := Cplx 0%float 1%float.

Definition invalid_gate (prefix : string) (op : Op) : exn :=
  invalid_argument (prefix +:+ "::invalid gate instruction '" +:+ op_name op +:+ "'.").

Definition apply_gate_statevector (op : Op) : M Sim unit :=
  match gateset_ !! op_name op with
  | None => throw (invalid_gate "DensityMatrixState" op)
  | Some g =>
      match g with
      | Gates.x | Gates.cx => on_qreg (qreg_apply_mcx (op_qubits op))
      | Gates.u1 =>
          do last <- qubit op (usub (usize (op_qubits op)) 1);
          do p0 <- param op 0;
          do nq <- num_qubits;
          if bool_decide (last < nq) then
            on_qreg (qreg_apply_mcphase (op_qubits op) (std_exp (complex_mul imag_unit p0)))
          else
            on_qreg (qreg_apply_mcphase (op_qubits op)
                       (std_conj (std_exp (complex_mul imag_unit p0))))
      | Gates.y => on_qreg (qreg_apply_mcy (op_qubits op))
      | Gates.z => on_qreg (qreg_apply_mcphase (op_qubits op) (complex_of_int (-1)))
      | _ => throw (invalid_gate "DensityMatrix::State" op)
      end
  end.

(** The second half of [apply_gate]: look the name up in [gateset_] and
    switch on the gate. Every enumerator has a case, so the [default]
    label of the source cannot be reached. *)
Definition apply_gate_switch (op : Op) : M Sim unit :=
  match gateset_ !! op_name op with
  | None => throw (invalid_gate "DensityMatrixState" op)
  | Some g =>
      match g with
      | Gates.u3 =>
          do q0 <- qubit op 0; do p0 <- param op 0; do p1 <- param op 1;
          do p2 <- param op 2;
          apply_gate_u3 q0 (Re p0) (Re p1) (Re p2)
      | Gates.u2 =>
          do q0 <- qubit op 0; do p0 <- param op 0; do p1 <- param op 1;
          apply_gate_u3 q0 (M_PI / 2)%float (Re p0) (Re p1)
      | Gates.u1 =>
          do q0 <- qubit op 0; do p0 <- param op 0;
          apply_phase q0 (std_exp (complex_mul imag_unit p0))
      | Gates.cx =>
          do q0 <- qubit op 0; do q1 <- qubit op 1; on_qreg (qreg_apply_cnot q0 q1)
      | Gates.cy =>
          do q0 <- qubit op 0; do q1 <- qubit op 1; on_qreg (qreg_apply_cy q0 q1)
      | Gates.cz =>
          do q0 <- qubit op 0; do q1 <- qubit op 1;
          on_qreg (qreg_apply_cphase q0 q1 (complex_of_int (-1)))
      | Gates.cp =>
          do q0 <- qubit op 0; do q1 <- qubit op 1; do p0 <- param op 0;
          on_qreg (qreg_apply_cphase q0 q1 (std_exp (complex_mul imag_unit p0)))
      | Gates.id => ret tt
      | Gates.x => do q0 <- qubit op 0; on_qreg (qreg_apply_x q0)
      | Gates.y => do q0 <- qubit op 0; on_qreg (qreg_apply_y q0)
      | Gates.z => do q0 <- qubit op 0; apply_phase q0 (complex_of_int (-1))
      | Gates.h => do q0 <- qubit op 0; apply_gate_u3 q0 (M_PI / 2)%float 0%float M_PI
      | Gates.s => do q0 <- qubit op 0; apply_phase q0 (Cplx 0%float 1%float)
      | Gates.sdg => do q0 <- qubit op 0; apply_phase q0 (Cplx 0%float (-1)%float)
      | Gates.sx => on_qreg (qreg_apply_unitary_matrix (op_qubits op) VMatrix_SX)
      | Gates.sxdg => on_qreg (qreg_apply_unitary_matrix (op_qubits op) VMatrix_SXDG)
      | Gates.t_ =>
          let isqrt2 := (1 / PrimFloat.sqrt 2)%float in
          do q0 <- qubit op 0; apply_phase q0 (Cplx isqrt2 isqrt2)
      | Gates.tdg =>
          let isqrt2 := (1 / PrimFloat.sqrt 2)%float in
          do q0 <- qubit op 0; apply_phase q0 (Cplx isqrt2 (- isqrt2)%float)
      | Gates.swap =>
          do q0 <- qubit op 0; do q1 <- qubit op 1; on_qreg (qreg_apply_swap q0 q1)
      | Gates.ecr => on_qreg (qreg_apply_unitary_matrix (op_qubits op) VMatrix_ECR)
      | Gates.ccx =>
          do q0 <- qubit op 0; do q1 <- qubit op 1; do q2 <- qubit op 2;
          on_qreg (qreg_apply_toffoli q0 q1 q2)
      | Gates.r =>
          do p0 <- param op 0; do p1 <- param op 1;
          on_qreg (qreg_apply_unitary_matrix (op_qubits op) (VMatrix_r p0 p1))
      | Gates.rx =>
          do p0 <- param op 0;
          on_qreg (qreg_apply_unitary_matrix (op_qubits op) (VMatrix_rx p0))
      | Gates.ry =>
          do p0 <- param op 0;
          on_qreg (qreg_apply_unitary_matrix (op_qubits op) (VMatrix_ry p0))
      | Gates.rz =>
          do p0 <- param op 0;
          apply_diagonal_unitary_matrix (op_qubits op) (VMatrix_rz_diag p0)
      | Gates.rxx =>
          do p0 <- param op 0;
          on_qreg (qreg_apply_unitary_matrix (op_qubits op) (VMatrix_rxx p0))
      | Gates.ryy =>
          do p0 <- param op 0;
          on_qreg (qreg_apply_unitary_matrix (op_qubits op) (VMatrix_ryy p0))
      | Gates.rzz =>
          do p0 <- param op 0;
          apply_diagonal_unitary_matrix (op_qubits op) (VMatrix_rzz_diag p0)
      | Gates.rzx =>
          do p0 <- param op 0;
          on_qreg (qreg_apply_unitary_matrix (op_qubits op) (VMatrix_rzx p0))
      | Gates.pauli =>
          do s0 <- access (vec_at (op_string_params op) 0);
          apply_pauli (op_qubits op) s0
      end
  end.

(** [mask |= (1ull << (qubits_out[i] - num_qubits))] over [qubits_out] *)
Definition ctrl_mask (nq : uint_t) (qubits_out : reg_t) : uint_t :=
  foldl (λ mask q, Z.lor mask (ushl 1 (usub q nq))) 0 qubits_out.
(** the chunk index carries the control bits on the row side ... *)
Definition ctrl_chunk (st : Sim) (mask : uint_t) : bool :=
  bool_decide (Z.land (qreg_chunk_index (qreg_ st)) mask = mask).
(** ... and, shifted by the number of global qubits, on the column side *)
Definition ctrl_chunk_sp (st : Sim) (mask : uint_t) : bool :=
  bool_decide
    (Z.land (ushr (qreg_chunk_index (qreg_ st))
               (usub (num_global_qubits_ st) (qreg_num_qubits (qreg_ st)))) mask = mask).

Definition with_qubits (op : Op) (qs : reg_t) : Op :=
  mkOp (op_type op) (op_name op) qs (op_params op) (op_int_params op)
       (op_string_params op) (op_mats op) (op_memory op) (op_registers op)
       (op_save_type op).

(** [apply_gate] calls itself on the operation rewritten for the chunk;
    [fuel] bounds the depth of that recursion. *)
Fixpoint apply_gate (fuel : nat) (op : Op) : M Sim unit :=
  match fuel with
  | O => λ _, OutOfFuel
  | S fuel' =>
      λ st,
        let nq := qreg_num_qubits (qreg_ st) in
        if chunk_id_outside_kernel st then
          let '(qubits_in, qubits_out) :=
            if is_ctrl_name (op_name op)
            then Chunk_get_inout_ctrl_qubits op nq else ([], []) in
          if bool_decide (0 < usize qubits_out) then
            let mask := ctrl_mask nq qubits_out in
            if negb (ctrl_chunk st mask) && negb (ctrl_chunk_sp st mask) then
              Ok tt st
            else
              let new_op := Chunk_correct_gate_op_in_chunk op qubits_in in
              if ctrl_chunk st mask && ctrl_chunk_sp st mask then
                apply_gate fuel' new_op st
              else if ctrl_chunk st mask then
                apply_gate_statevector new_op st
              else
                apply_gate_statevector
                  (with_qubits new_op ((λ q, uadd q nq) <$> op_qubits new_op)) st
          else apply_gate_switch op st
        else apply_gate_switch op st
  end.

(** *** Reset and measurement sampling *)

Definition measure_probs (qubits : reg_t) (st : Sim) : rvector_t :=
  qreg_probabilities (qreg_ st) qubits.

Definition apply_reset (qubits : reg_t) : M Sim unit :=
  on_qreg (qreg_apply_reset qubits).

Definition sample_measure_with_prob (qubits : reg_t) : M Sim (uint_t * float) :=
  do probs <- gets (measure_probs qubits);
  (* Randomly pick outcome and return pair *)
  do outcome <- rand_int probs;
  do p <- access (vec_at probs outcome);
  ret (outcome, p).

(** [1. / std::sqrt(meas_prob)], stored into a [complex_t] cell *)
Definition renorm (meas_prob : float) : complex_t :=
  complex_of_real (1 / PrimFloat.sqrt meas_prob)%float.

(** the loop that puts the ones on the diagonal of [perm] *)
Definition perm_diagonal (dim final_state meas_state : uint_t) (perm : cvector_t)
    : M Sim cvector_t :=
  for_fold (seqZ 0 dim)
    (λ perm j,
       if negb (bool_decide (j = final_state)) && negb (bool_decide (j = meas_state))
       then access (vec_set perm (uadd (umul j dim) j) C1)
       else ret perm)
    perm.

Definition measure_reset_update (qubits : reg_t) (final_state meas_state : uint_t)
    (meas_prob : float) : M Sim unit :=
  (* Single-qubit case *)
  if bool_decide (usize qubits = 1) then
    (* Diagonal matrix for projecting and renormalizing to measurement outcome *)
    do mdiag <- access (vec_set (replicate 2 C0) meas_state (renorm meas_prob));
    apply_diagonal_unitary_matrix qubits mdiag;;
    (* If it doesn't agree with the reset state update *)
    if negb (bool_decide (final_state = meas_state)) then
      do q0 <- access (vec_at qubits 0);
      on_qreg (qreg_apply_x q0)
    else ret tt
  (* Multi qubit case *)
  else
    let dim := ushl 1 (usize qubits) in
    do mdiag <- access (vec_set (replicate (Z.to_nat dim) C0) meas_state
                          (renorm meas_prob));
    apply_diagonal_unitary_matrix qubits mdiag;;
    if negb (bool_decide (final_state = meas_state)) then
      (* build vectorized permutation matrix *)
      let perm := replicate (Z.to_nat (umul dim dim)) C0 in
      do perm <- access (vec_set perm (uadd (umul final_state dim) meas_state) C1);
      do perm <- access (vec_set perm (uadd (umul meas_state dim) final_state) C1);
      do perm <- perm_diagonal dim final_state meas_state perm;
      (* apply permutation to swap state *)
      on_qreg (qreg_apply_unitary_matrix qubits perm)
    else ret tt.

Definition apply_measure (qubits cmemory cregister : reg_t) : M Sim unit :=
  (* Actual measurement outcome *)
  do meas <- sample_measure_with_prob qubits;
  (* Implement measurement update *)
  measure_reset_update qubits (fst meas) (fst meas) (snd meas);;
  let outcome := Utils_int2reg (fst meas) 2 (usize qubits) in
  modify (set_creg (creg_store_measure outcome cmemory cregister)).

Definition sample_measure (qubits : reg_t) (shots : uint_t) : M Sim (list reg_t) :=
  (* Generate flat register for storing *)
  do rnds <- for_fold (seqZ 0 shots)
               (λ rnds _, do x <- rand 0%float 1%float; ret (rnds ++ [x])) [];
  do allbit_samples <- gets (λ st, qreg_sample_measure (qreg_ st) rnds);
  do nq <- num_qubits;
  (* Convert to reg_t format *)
  for_fold allbit_samples
    (λ all_samples val,
       let allbit_sample := Utils_int2reg val 2 nq in
       do sample <- for_fold qubits
                      (λ sample q, do b <- access (vec_at allbit_sample q);
                                   ret (sample ++ [b])) [];
       ret (all_samples ++ [sample]))
    [].

(** *** Save data *)

(** [for (i < VDIM) reduced_state[i] = std::move(vmat[inds[i]])] *)
Definition fill_block (vmat : cvector_t) (inds : list uint_t) (VDIM : Z)
    (data : cvector_t) : M Sim cvector_t :=
  for_fold (seqZ 0 VDIM)
    (λ data i,
       do j <- access (vec_at inds i);
       do v <- access (vec_at vmat j);
       access (vec_set data i v))
    data.

(** [for (i < VDIM) reduced_state[i] += complex_t(std::move(vmat[inds[i]]))] *)
Definition add_block (vmat : cvector_t) (inds : list uint_t) (VDIM : Z)
    (data : cvector_t) : M Sim cvector_t :=
  for_fold (seqZ 0 VDIM)
    (λ data i,
       do j <- access (vec_at inds i);
       do v <- access (vec_at vmat j);
       do old <- access (vec_at data i);
       access (vec_set data i (Cadd old v)))
    data.

Definition reduced_density_matrix_helper (qubits qubits_sorted : reg_t)
    : M Sim cmatrix_t :=
  λ st,
    (* Get superoperator qubits *)
    let squbits := qreg_superop_qubits (qreg_ st) qubits in
    let squbits_sorted := qreg_superop_qubits (qreg_ st) qubits_sorted in
    (* Get dimensions *)
    let N := usize qubits in
    let DIM := ushl 1 N in
    let VDIM := to_int_t (ushl 1 (umul 2 N)) in
    let END := ushl 1 (usub (qreg_num_qubits (qreg_ st)) N) in
    let SHIFT := uadd END 1 in
    (* Copy vector to host memory *)
    let vmat := qreg_vector (qreg_ st) in
    let reduced_state := cmatrix_new DIM DIM in
    (do data <-
       (* Fill matrix with first iteration *)
       fill_block vmat (QV_indexes squbits squbits_sorted 0) VDIM
         (mat_data reduced_state);
     (* Accumulate with remaning blocks *)
     do data <-
       for_fold (seqZ 1 (END - 1))
         (λ data k,
            add_block vmat (QV_indexes squbits squbits_sorted (umul k SHIFT)) VDIM data)
         data;
     ret (Matrix DIM DIM data)) st.

Definition reduced_density_matrix (qubits : reg_t) (last_op : bool) : M Sim cmatrix_t :=
  (* Check if tracing over all qubits *)
  if bool_decide (qubits = []) then
    do tr <- gets (λ st, qreg_trace (qreg_ st));
    do data <- access (vec_set (mat_data (cmatrix_new 1 1)) 0 (complex_of_real tr));
    ret (Matrix 1 1 data)
  else
    let qubits_sorted := merge_sort Z.le qubits in
    do nq <- num_qubits;
    if bool_decide (usize qubits = nq) && bool_decide (qubits = qubits_sorted) then
      if last_op then move_to_matrix else copy_to_matrix
    else
      reduced_density_matrix_helper qubits qubits_sorted.

Definition apply_save_probs (op : Op) : M Sim unit :=
  do probs <- gets (measure_probs (op_qubits op));
  do key <- access (vec_at (op_string_params op) 0);
  match op_type op with
  | OpType.save_probs_ket =>
      do chop <- gets json_chop_threshold_;
      save key (payload_ket (Utils_vec2ket probs chop 16)) (op_type op) (op_save_type op)
  | _ => save key (payload_rvector probs) (op_type op) (op_save_type op)
  end.

Definition apply_save_amplitudes_sq (op : Op) : M Sim unit :=
  if bool_decide (op_int_params op = []) then
    throw (invalid_argument "Invalid save_amplitudes_sq instructions (empty params).")
  else
    do amps_sq <- gets (λ st, qreg_probability (qreg_ st) <$> op_int_params op);
    do key <- access (vec_at (op_string_params op) 0);
    save key (payload_rvector amps_sq) (op_type op) (op_save_type op).

Definition apply_save_density_matrix (op : Op) (last_op : bool) : M Sim unit :=
  do key <- access (vec_at (op_string_params op) 0);
  do m <- reduced_density_matrix (op_qubits op) last_op;
  save key (payload_cmatrix m) (op_type op) (op_save_type op).

Definition apply_save_state (op : Op) (last_op : bool) : M Sim unit :=
  do nq <- num_qubits;
  if negb (bool_decide (usize (op_qubits op) = nq)) then
    throw (invalid_argument
             (op_name op +:+ " was not applied to all qubits." +:+
              " Only the full state can be saved."))
  else
    (* Renamp single data type to average *)
    let save_type :=
      match op_save_type op with
      | DataSubType.single => DataSubType.average
      | DataSubType.c_single => DataSubType.c_average
      | t => t
      end in
    (* Default key *)
    do s0 <- access (vec_at (op_string_params op) 0);
    let key := if String.eqb s0 "_method_" then "density_matrix"%string else s0 in
    if last_op then
      do m <- move_to_matrix;
      save key (payload_cmatrix m) OpType.save_densmat save_type
    else
      do m <- copy_to_matrix;
      save key (payload_cmatrix m) OpType.save_densmat save_type.

(** *** Apply operations *)

Definition invalid_instruction (op : Op) : exn :=
  invalid_argument ("DensityMatrix::State::invalid instruction '" +:+ op_name op +:+ "'.").

Definition apply_op (fuel : nat) (op : Op) (final_ops : bool) : M Sim unit :=
  λ st,
    if creg_check_conditional (creg st) op then
      match op_type op with
      | OpType.barrier | OpType.qerror_loc => ret tt st
      | OpType.reset => apply_reset (op_qubits op) st
      | OpType.measure =>
          apply_measure (op_qubits op) (op_memory op) (op_registers op) st
      | OpType.bfunc => modify (set_creg (creg_apply_bfunc op)) st
      | OpType.roerror =>
          let '(c, g) := creg_apply_roerror op (creg st, rng st) in
          Ok tt (set_rng g (set_creg (λ _, c) st))
      | OpType.gate => apply_gate fuel op st
      | OpType.matrix =>
          (do m0 <- access (vec_at (op_mats op) 0); apply_matrix (op_qubits op) m0) st
      | OpType.diagonal_matrix =>
          apply_diagonal_unitary_matrix (op_qubits op) (op_params op) st
      | OpType.superop =>
          (do m0 <- access (vec_at (op_mats op) 0);
           on_qreg (qreg_apply_superop_matrix (op_qubits op)
                      (Utils_vectorize_matrix m0))) st
      | OpType.kraus => apply_kraus (op_qubits op) (op_mats op) st
      | OpType.set_statevec => initialize_from_vector (op_params op) st
      | OpType.set_densmat =>
          (do m0 <- access (vec_at (op_mats op) 0);
           on_qreg (qreg_initialize_from_matrix m0)) st
      | OpType.save_expval | OpType.save_expval_var =>
          BaseState_apply_save_expval op st
      | OpType.save_state => apply_save_state op final_ops st
      | OpType.save_densmat => apply_save_density_matrix op final_ops st
      | OpType.save_probs | OpType.save_probs_ket => apply_save_probs op st
      | OpType.save_amps_sq => apply_save_amplitudes_sq op st
      | _ => throw (invalid_instruction op) st
      end
    else Ok tt st.

End State.

Arguments Sim : clear implicits.
Arguments mkSim {densmat_t creg_t rng_t result_t}.

(** ** Test doubles

    Stand-ins for the collaborators, enough to run the state class on
    small inputs. The buffer is a spy: it answers queries from fixed fields
    and records every updating kernel call in order. The helper functions
    are simple stand-ins and say nothing about the real ones. *)

Module Double.

Inductive kernel_call :=
| move_to_matrix_
| initialize_from_vector_ (v : cvector_t)
| initialize_from_matrix_ (m : cmatrix_t)
| apply_superop_matrix_ (qubits : reg_t) (m : cvector_t)
| apply_unitary_matrix_ (qubits : reg_t) (m : cvector_t)
| apply_diagonal_unitary_matrix_ (qubits : reg_t) (d : cvector_t)
| apply_diagonal_matrix_ (qubits : reg_t) (d : cvector_t)
| apply_cnot_ (q0 q1 : uint_t)
| apply_cy_ (q0 q1 : uint_t)
| apply_cphase_ (q0 q1 : uint_t) (phase : complex_t)
| apply_swap_ (q0 q1 : uint_t)
| apply_x_ (q : uint_t)
| apply_y_ (q : uint_t)
| apply_toffoli_ (q0 q1 q2 : uint_t)
| apply_mcx_ (qubits : reg_t)
| apply_mcy_ (qubits : reg_t)
| apply_mcphase_ (qubits : reg_t) (phase : complex_t)
| apply_pauli_ (qubits : reg_t) (pauli : string) (coeff : complex_t)
| apply_reset_ (qubits : reg_t).

Record spy := mkSpy {
  spy_num_qubits : uint_t;
  spy_chunk_index : uint_t;
  spy_global_indexing : bool;
  spy_vector : cvector_t;
  spy_trace : float;
  spy_probs : rvector_t;
  spy_samples : reg_t;
  spy_calls : list kernel_call
}.

Definition record (c : kernel_call) (q : spy) : spy :=
  mkSpy (spy_num_qubits q) (spy_chunk_index q) (spy_global_indexing q)
        (spy_vector q) (spy_trace q) (spy_probs q) (spy_samples q)
        (spy_calls q ++ [c]).

Definition spy_matrix (q : spy) : cmatrix_t :=
  Matrix (2 ^ spy_num_qubits q) (2 ^ spy_num_qubits q) (spy_vector q).

#[global] Instance spy_buffer : DensityMatrix spy := {|
  qreg_num_qubits := spy_num_qubits;
  qreg_chunk_index := spy_chunk_index;
  qreg_support_global_indexing := spy_global_indexing;
  qreg_trace := spy_trace;
  qreg_probabilities q _ := spy_probs q;
  qreg_probability q i := default 0%float (vec_at (spy_probs q) i);
  qreg_vector := spy_vector;
  qreg_copy_to_matrix := spy_matrix;
  qreg_superop_qubits q qubits := qubits ++ ((λ x, x + spy_num_qubits q) <$> qubits);
  qreg_sample_measure q rnds := take (length rnds) (spy_samples q);
  qreg_expval_pauli _ _ _ := 0%float;
  qreg_move_to_matrix q := (spy_matrix q, record move_to_matrix_ q);
  qreg_initialize_from_vector v := record (initialize_from_vector_ v);
  qreg_initialize_from_matrix m := record (initialize_from_matrix_ m);
  qreg_apply_superop_matrix qs m := record (apply_superop_matrix_ qs m);
  qreg_apply_unitary_matrix qs m := record (apply_unitary_matrix_ qs m);
  qreg_apply_diagonal_unitary_matrix qs d := record (apply_diagonal_unitary_matrix_ qs d);
  qreg_apply_diagonal_matrix qs d := record (apply_diagonal_matrix_ qs d);
  qreg_apply_cnot a b := record (apply_cnot_ a b);
  qreg_apply_cy a b := record (apply_cy_ a b);
  qreg_apply_cphase a b p := record (apply_cphase_ a b p);
  qreg_apply_swap a b := record (apply_swap_ a b);
  qreg_apply_x a := record (apply_x_ a);
  qreg_apply_y a := record (apply_y_ a);
  qreg_apply_toffoli a b c := record (apply_toffoli_ a b c);
  qreg_apply_mcx qs := record (apply_mcx_ qs);
  qreg_apply_mcy qs := record (apply_mcy_ qs);
  qreg_apply_mcphase qs p := record (apply_mcphase_ qs p);
  qreg_apply_pauli qs s c := record (apply_pauli_ qs s c);
  qreg_apply_reset qs := record (apply_reset_ qs)
|}.

(** A scripted random source: the draws to hand out, in order. *)
Record script := mkScript { reals : rvector_t; ints : reg_t }.

#[global] Instance scripted_rng : RngEngine script := {|
  rng_rand a _ g := (default a (head (reals g)), mkScript (tail (reals g)) (ints g));
  rng_rand_int _ g := (default 0 (head (ints g)), mkScript (reals g) (tail (ints g)))
|}.

(** A classical register that answers every conditional with [cond] and
    keeps the measured bits it was given. *)
Record bits := mkBits { cond : bool; stored : list (reg_t * reg_t * reg_t) }.

#[global] Instance bits_register : ClassicalRegister bits script := {|
  creg_check_conditional c _ := cond c;
  creg_apply_bfunc _ c := c;
  creg_apply_roerror _ cg := cg;
  creg_store_measure outcome memory registers c :=
    mkBits (cond c) (stored c ++ [(outcome, memory, registers)])
|}.

(** A result sink that lists what was saved. *)
Definition saved := list (string * save_payload * OpType.t * DataSubType.t).

#[global] Instance saved_result : ExperimentResult saved bits := {|
  save_data_average _ key v t sub r := r ++ [(key, v, t, sub)]
|}.

(** digits of [n], least significant first, padded to [minlen] *)
Fixpoint digits (fuel : nat) (n base : Z) : reg_t :=
  match fuel with
  | O => [n]
  | S fuel' => if bool_decide (base ≤ n)
               then (n `mod` base) :: digits fuel' (n `div` base) base
               else [n]
  end.
Definition int2reg (n base minlen : uint_t) : reg_t :=
  let ds := digits 64 n base in
  ds ++ replicate (Z.to_nat minlen - length ds) 0.

(** the index generator: zero bits inserted at the sorted positions, then
    every combination of the bits at [qubits] *)
Definition index0 (qubits_sorted : reg_t) (k : uint_t) : uint_t :=
  foldl (λ retval q,
           Z.lor (Z.shiftl (Z.shiftr retval q) (q + 1)) (Z.land retval (Z.ones q)))
        k qubits_sorted.
Definition indexes (qubits qubits_sorted : reg_t) (k : uint_t) : list uint_t :=
  foldl (λ ret q, ret ++ ((λ i, Z.lor i (Z.shiftl 1 q)) <$> ret))
        [index0 qubits_sorted k] qubits.

Definition complex_mul_textbook (a b : complex_t) : complex_t :=
  Cplx (Re a * Re b - Im a * Im b)%float (Re a * Im b + Im a * Re b)%float.

#[global] Instance stand_ins : Helpers := {|
  Utils_vectorize_matrix := mat_data;
  Utils_tensor_product a b := x ← a; y ← b; [complex_mul_textbook x y];
  Utils_conjugate v := (λ c, Cplx (Re c) (- Im c)%float) <$> v;
  Utils_int2reg := int2reg;
  Utils_vec2ket _ _ _ := [];
  Utils_kraus_superop ms := default (cmatrix_new 0 0) (head ms);
  Chunk_get_inout_ctrl_qubits op nq :=
    (filter (λ q, q < nq) (op_qubits op), filter (λ q, nq ≤ q) (op_qubits op));
  Chunk_correct_gate_op_in_chunk op qubits_in :=
    mkOp (op_type op) (op_name op) qubits_in (op_params op) (op_int_params op)
         (op_string_params op) (op_mats op) (op_memory op) (op_registers op)
         (op_save_type op);
  Chunk_block_diagonal_matrix _ nq qubits diag := (filter (λ q, q < nq) qubits, diag);
  QV_indexes := indexes;
  VMatrix_SX := [];
  VMatrix_SXDG := [];
  VMatrix_ECR := [];
  VMatrix_u3 _ _ _ := [];
  VMatrix_r _ _ := [];
  VMatrix_rx _ := [];
  VMatrix_ry _ := [];
  VMatrix_rz_diag _ := [];
  VMatrix_rxx _ := [];
  VMatrix_ryy _ := [];
  VMatrix_rzz_diag _ := [];
  VMatrix_rzx _ := [];
  std_exp c := c;
  std_conj c := Cplx (Re c) (- Im c)%float;
  complex_mul := complex_mul_textbook
|}.

Definition world := Sim spy bits script saved.

(** the base class saves nothing in the double *)
Definition no_save_expval : Op → M world unit := λ _, ret tt.

(** a one-chunk simulation of [n] qubits *)
Definition fresh (n : uint_t) (vec : cvector_t) (tr : float) (probs : rvector_t)
    (samples : reg_t) (rs : rvector_t) (ns : reg_t) (c : bool) : world :=
  mkSim (mkSpy n 0 false vec tr probs samples []) (mkBits c []) n 1 14
        0x1.b7cdfd9d7bdbbp-34%float [] (mkScript rs ns).

(** chunk [idx] of a simulation of [n] qubits split into chunks of [local] *)
Definition chunk (n local idx : uint_t) : world :=
  mkSim (mkSpy local idx false [] 0%float [] [] []) (mkBits true []) n 1 14
        0x1.b7cdfd9d7bdbbp-34%float [] (mkScript [] []).

Definition gate_op (name : string) (qubits : reg_t) : Op :=
  mkOp OpType.gate name qubits [] [] [] [] [] [] DataSubType.single.

End Double.

(** ** Specification-level definitions

    The notions in which the properties below are stated. *)

(** *** Outcomes *)

Section Predicates.
Context {S : Type}.

(** calls that never leave by an exception *)
Definition no_throw {A} (m : M S A) : Prop := ∀ st e st', m st ≠ Throw e st'.

(** calls that return *)
Definition returns {A} (m : M S A) : Prop := ∀ st, ∃ a st', m st = Ok a st'.

(** calls that, when they return, leave the state related by [R] to the
    state they started in *)
Definition keeps {A} (R : relation S) (m : M S A) : Prop :=
  ∀ st a st', m st = Ok a st' → R st st'.
End Predicates.

(** *** Measurement *)

(** The diagonal of size [dim] whose only entry that may differ from zero
    is [v], at index [m]. *)
Definition projector_diag (dim m : Z) (v : complex_t) : cvector_t :=
  (λ i, if bool_decide (i = m) then v else C0) <$> seqZ 0 dim.

(** The transposition of the basis states [a] and [b]. *)
Definition swap_states (a b j : Z) : Z :=
  if bool_decide (j = a) then b else if bool_decide (j = b) then a else j.

(** The [dim] x [dim] permutation matrix of that transposition, as a
    vector: the cell of row [r] and column [c] is at [c * dim + r]. *)
Definition swap_matrix (dim a b : Z) : cvector_t :=
  (λ i, if bool_decide (i `mod` dim = swap_states a b (i `div` dim)) then C1 else C0)
    <$> seqZ 0 (dim * dim).

(** one round of the loop over the diagonal, as a function *)
Definition perm_step (dim a b : Z) (perm : cvector_t) (j : Z) : cvector_t :=
  if negb (bool_decide (j = a)) && negb (bool_decide (j = b))
  then <[Z.to_nat (j * dim + j) := C1]> perm else perm.

(** *** Qubit lists *)

(** A well-formed operand list of an [n]-qubit register: distinct qubits,
    each below [n]. *)
Definition qubits_wf (n : Z) (qubits : reg_t) : Prop :=
  NoDup qubits ∧ ∀ q, q ∈ qubits → 0 ≤ q < n.

(** The list names every qubit of the register. *)
Definition covers_register (n : Z) (qubits : reg_t) : Prop :=
  ∀ q, 0 ≤ q < n → q ∈ qubits.

(** the exception of [apply_save_state] *)
Definition not_all_qubits (op : Op) : exn :=
  invalid_argument
    (op_name op +:+ " was not applied to all qubits. Only the full state can be saved.").

(** *** The dispatcher *)

(** The kinds the dispatcher has a case for. *)
Definition dispatched (t : OpType.t) : bool :=
  match t with
  | OpType.barrier | OpType.qerror_loc | OpType.reset | OpType.measure
  | OpType.bfunc | OpType.roerror | OpType.gate | OpType.matrix
  | OpType.diagonal_matrix | OpType.superop | OpType.kraus
  | OpType.set_statevec | OpType.set_densmat
  | OpType.save_expval | OpType.save_expval_var | OpType.save_state
  | OpType.save_densmat | OpType.save_probs | OpType.save_probs_ket
  | OpType.save_amps_sq => true
  | _ => false
  end.

Section Notions.
Context {densmat_t creg_t rng_t result_t : Type}.
Context `{!DensityMatrix densmat_t, !RngEngine rng_t,
          !ClassicalRegister creg_t rng_t,
          !ExperimentResult result_t creg_t, !Helpers}.
#[local] Abbreviation Sim := (Sim densmat_t creg_t rng_t result_t).

(** the control qubits of [op] that lie outside the chunk of [st] *)
Definition global_ctrl_qubits (op : Op) (st : Sim) : reg_t :=
  snd (Chunk_get_inout_ctrl_qubits op (qreg_num_qubits (qreg_ st))).

(** the two states differ at most in the random-number engine *)
Definition same_but_rng (st st' : Sim) : Prop := st' = set_rng (rng st') st.
End Notions.

(** *** The partial trace as a sum over blocks *)






(** *** A reference semantics for the Pauli kernels

    The kernels [apply_pauli], [apply_x] and [apply_y] of the buffer, and
    its [superop_qubits], are in [densitymatrix.hpp], not in the file
    embedded here. What the spec says of them is written out below, over
    exact complex amplitudes. *)

Module PauliReference.

Record C := mkC { re : R; im : R }.
Definition Cmul (a b : C) : C :=
  mkC (re a * re b - im a * im b)%R (re a * im b + im a * re b)%R.
Definition Copp (a : C) : C := mkC (- re a)%R (- im a)%R.
Definition Ci : C := mkC 0%R 1%R.
Definition C_of_Z (z : Z) : C := mkC (IZR z) 0%R.

(** the vectorised state: an amplitude for every basis index *)
Definition amplitudes := Z → C.

Inductive letter := sI | sX | sY | sZ.

Definition letter_of (c : ascii) : option letter :=
  if bool_decide (c = "I"%char) then Some sI
  else if bool_decide (c = "X"%char) then Some sX
  else if bool_decide (c = "Y"%char) then Some sY
  else if bool_decide (c = "Z"%char) then Some sZ
  else None.

Fixpoint parse (pauli : string) : option (list letter) :=
  match pauli with
  | EmptyString => Some []
  | String c s => l ← letter_of c; ls ← parse s; Some (l :: ls)
  end.

(** the basis index with bit [q] flipped *)
Definition flip (q i : Z) : Z := Z.lxor i (2 ^ q).

(** [Y = [[0, -i], [i, 0]]]: the factor picked up by the component whose
    bit is [b]; [conj] conjugates it *)
Definition phase_Y (conj b : bool) : C := if xorb conj b then Ci else Copp Ci.

(** Modelled from the spec: the action of one Pauli matrix of the kernels
    (conjugated if [conj]) on index bit [q] of the vectorised buffer. *)
Definition sigma (conj : bool) (l : letter) (q : Z) (v : amplitudes) : amplitudes :=
  match l with
  | sI => v
  | sX => λ i, v (flip q i)
  | sY => λ i, Cmul (phase_Y conj (Z.testbit i q)) (v (flip q i))
  | sZ => λ i, if Z.testbit i q then Copp (v i) else v i
  end.

(** Modelled from the spec: a Pauli string on listed index bits, the part
    of the kernel [apply_pauli] before the coefficient. Letter [i] of the
    string acts on the [i]-th listed bit, as in the spec's example. *)
Fixpoint on_bits (qubits : list Z) (ls : list letter) (v : amplitudes) : amplitudes :=
  match qubits, ls with
  | q :: qs, l :: ls' => sigma false l q (on_bits qs ls' v)
  | _, _ => v
  end.

Definition scale (c : Z) (v : amplitudes) : amplitudes := λ i, Cmul (C_of_Z c) (v i).

(** Modelled from the spec: [superop_qubits] of the buffer. The density
    matrix of [n] qubits is a vector over [2n] index bits, the [n] ket bits
    followed by the [n] bra bits. *)
Definition superop_qubits (n : Z) (qubits : list Z) : list Z :=
  qubits ++ ((λ q, q + n) <$> qubits).

(** Modelled from the spec: the kernel [apply_pauli(qubits, pauli, coeff)]
    of the buffer, a coefficient times one Pauli matrix per listed bit. *)
Definition apply_pauli (qubits : list Z) (pauli : string) (coeff : Z)
    (v : amplitudes) : option amplitudes :=
  ls ← parse pauli; Some (scale coeff (on_bits qubits ls v)).

(** Modelled from the spec: a one-qubit Pauli gate on the density matrix
    of [n] qubits (the kernels [apply_x] and [apply_y] of the buffer): the
    matrix on the ket bit [q] and its conjugate on the bra bit [q + n]. *)
Definition apply_gate (n : Z) (l : letter) (q : Z) (v : amplitudes) : amplitudes :=
  sigma true l (q + n) (sigma false l q v).
Definition apply_x (n q : Z) : amplitudes → amplitudes := apply_gate n sX q.
Definition apply_y (n q : Z) : amplitudes → amplitudes := apply_gate n sY q.

(** one gate per letter, qubit by qubit *)
Fixpoint apply_gates (n : Z) (qubits : list Z) (ls : list letter) (v : amplitudes)
    : amplitudes :=
  match qubits, ls with
  | q :: qs, l :: ls' => apply_gates n qs ls' (apply_gate n l q v)
  | _, _ => v
  end.

Fixpoint count_Y (ls : list letter) : Z :=
  match ls with
  | [] => 0
  | l :: ls' => (match l with sY => 1 | _ => 0 end) + count_Y ls'
  end.

(** conjugation changes the sign of Y and nothing else *)
Definition conj_sign (l : letter) : Z := match l with sY => -1 | _ => 1 end.

End PauliReference.

(** *** Inputs of the examples *)

Definition save_state_op (qubits : reg_t) : Op :=
  mkOp OpType.save_state "save_state" qubits [] [] ["_method_"%string] [] [] []
       DataSubType.single.


Definition matrix_op (qubits : reg_t) (mat : cmatrix_t) : Op :=
  mkOp OpType.matrix "unitary" qubits [] [] [] [mat] [] [] DataSubType.single.


(** * Properties *)

(** ** General facts about calls and loops *)

Section Calls.
Context {S : Type}.

Lemma no_throw_ret {A} (a : A) : no_throw (S := S) (ret a).
Proof. by intros st e st'. Qed.

Lemma no_throw_access {A} (o : option A) : no_throw (S := S) (access o).
Proof. by destruct o; intros st e st'. Qed.

Lemma no_throw_modify (f : S → S) : no_throw (S := S) (modify f).
Proof. by intros st e st'. Qed.

Lemma no_throw_gets {A} (f : S → A) : no_throw (S := S) (gets f).
Proof. by intros st e st'. Qed.

Lemma no_throw_bind {A B} (m : M S A) (k : A → M S B) :
  no_throw (S := S) m → (∀ a, no_throw (S := S) (k a)) → no_throw (S := S) (bind m k).
Proof.
  intros Hm Hk st e st'. unfold bind.
  destruct (m st) as [a s1|e1 s1| |] eqn:E; try done.
  - apply Hk.
  - by destruct (Hm st e1 s1).
Qed.

Lemma no_throw_for_fold {A B} (xs : list A) (body : B → A → M S B) (b : B) :
  (∀ b x, no_throw (S := S) (body b x)) → no_throw (S := S) (for_fold xs body b).
Proof.
  intros Hbody. revert b.
  induction xs as [|x xs IH]; intros b; simpl.
  - apply no_throw_ret.
  - apply no_throw_bind; [apply Hbody | intros b'; apply IH].
Qed.

(** A loop whose body, under an invariant [P], always returns and acts
    like the pure step [g] is the left fold of [g]. *)
Lemma for_fold_pure {A B} (P : B → Prop) (g : B → A → B) (xs : list A)
    (body : B → A → M S B) (b : B) (st : S) :
  P b →
  (∀ b x st, P b → x ∈ xs → body b x st = Ok (g b x) st ∧ P (g b x)) →
  for_fold xs body b st = Ok (foldl g b xs) st ∧ P (foldl g b xs).
Proof.
  revert b. induction xs as [|x xs IH]; intros b Hb Hbody; simpl.
  - done.
  - unfold bind. destruct (Hbody b x st Hb) as [-> Hg]; [left|].
    apply IH; [done|]. intros b' x' st' Hb' Hx'. apply Hbody; [done | by right].
Qed.

Lemma returns_ret {A} (a : A) : returns (S := S) (ret a).
Proof. intros st. by eexists _, _. Qed.

Lemma returns_gets {A} (f : S → A) : returns (S := S) (gets f).
Proof. intros st. by eexists _, _. Qed.

Lemma returns_modify (f : S → S) : returns (S := S) (modify f).
Proof. intros st. by eexists _, _. Qed.

Lemma returns_bind {A B} (m : M S A) (k : A → M S B) :
  returns (S := S) m → (∀ a, returns (S := S) (k a)) → returns (S := S) (bind m k).
Proof.
  intros Hm Hk st. destruct (Hm st) as (a & st1 & E).
  unfold bind. rewrite E. apply Hk.
Qed.

Lemma returns_for_fold {A B} (xs : list A) (body : B → A → M S B) (b : B) :
  (∀ b x, x ∈ xs → returns (S := S) (body b x)) → returns (S := S) (for_fold xs body b).
Proof.
  revert b. induction xs as [|x xs IH]; intros b Hbody; simpl.
  - apply returns_ret.
  - apply returns_bind; [apply Hbody; left|].
    intros b'. apply IH. intros b'' x' Hx'. apply Hbody. by right.
Qed.

Section Keeps.
Context (R : relation S) `{!PreOrder R}.

Lemma keeps_ret {A} (a : A) : keeps R (ret a).
Proof. by intros st a' st' [= _ <-]. Qed.

Lemma keeps_gets {A} (f : S → A) : keeps R (gets f).
Proof. by intros st a' st' [= _ <-]. Qed.

Lemma keeps_access {A} (o : option A) : keeps R (access o).
Proof. destruct o; [apply keeps_ret | by intros st a' st']. Qed.

Lemma keeps_bind {A B} (m : M S A) (k : A → M S B) :
  keeps R m → (∀ a, keeps R (k a)) → keeps R (bind m k).
Proof.
  intros Hm Hk st b st'. unfold bind.
  destruct (m st) as [a s1|e s1| |] eqn:E; try done.
  intros Hk'. transitivity s1; [by eapply Hm | by eapply Hk].
Qed.

Lemma keeps_for_fold {A B} (xs : list A) (body : B → A → M S B) (b : B) :
  (∀ b x, keeps R (body b x)) → keeps R (for_fold xs body b).
Proof.
  intros Hbody. revert b. induction xs as [|x xs IH]; intros b; simpl.
  - apply keeps_ret.
  - apply keeps_bind; [apply Hbody | intros b'; apply IH].
Qed.
End Keeps.
End Calls.

Lemma usize_replicate {A} (n : Z) (x : A) : 0 ≤ n → usize (replicate (Z.to_nat n) x) = n.
Proof. intros. unfold usize. rewrite length_replicate. lia. Qed.

Lemma vec_set_Some {A} (v : list A) (i : Z) (x : A) :
  0 ≤ i < usize v → vec_set v i x = Some (<[Z.to_nat i := x]> v).
Proof. intros. unfold vec_set. by rewrite bool_decide_eq_true_2. Qed.

Lemma vec_set_projector (n m : Z) (v : complex_t) :
  0 ≤ m < n →
  vec_set (replicate (Z.to_nat n) C0) m v = Some (projector_diag n m v).
Proof.
  intros Hm. rewrite vec_set_Some by (rewrite usize_replicate; lia).
  f_equal. apply list_eq. intros i. unfold projector_diag.
  rewrite list_lookup_fmap.
  destruct (decide (Z.of_nat i < n)) as [Hi|Hi].
  - rewrite lookup_seqZ_lt by done. simpl.
    destruct (decide (i = Z.to_nat m)) as [->|Hne].
    + rewrite list_lookup_insert_eq by (rewrite length_replicate; lia).
      rewrite bool_decide_eq_true_2 by lia. done.
    + rewrite list_lookup_insert_ne by done.
      rewrite lookup_replicate_2 by lia.
      rewrite bool_decide_eq_false_2 by lia. done.
  - rewrite lookup_seqZ_ge by lia. simpl.
    apply lookup_ge_None. rewrite length_insert, length_replicate. lia.
Qed.

(** *** The permutation matrix of [measure_reset_update] *)

Lemma wrap64_small (z : Z) : 0 ≤ z < 2 ^ 64 → wrap64 z = z.
Proof. intros. unfold wrap64. by apply Z.mod_small. Qed.

Lemma perm_step_length dim a b perm j :
  length (perm_step dim a b perm j) = length perm.
Proof. unfold perm_step. case_match; [apply length_insert | done]. Qed.

Lemma foldl_perm_step_length dim a b js perm :
  length (foldl (perm_step dim a b) perm js) = length perm.
Proof.
  revert perm. induction js as [|j js IH]; intros perm; simpl; [done|].
  by rewrite IH, perm_step_length.
Qed.

Section Perm.
Context {densmat_t creg_t rng_t result_t : Type}.
Context `{!DensityMatrix densmat_t, !RngEngine rng_t,
          !ClassicalRegister creg_t rng_t,
          !ExperimentResult result_t creg_t, !Helpers}.
#[local] Abbreviation Sim := (Sim densmat_t creg_t rng_t result_t).

Lemma perm_diagonal_pure (dim a b : Z) (perm : cvector_t) (st : Sim) :
  0 ≤ dim → dim * dim < 2 ^ 64 → usize perm = dim * dim →
  perm_diagonal dim a b perm st = Ok (foldl (perm_step dim a b) perm (seqZ 0 dim)) st.
Proof.
  intros Hdim Hsq Hlen. unfold perm_diagonal.
  apply (for_fold_pure (λ p, usize p = dim * dim)); [done|].
  intros p j st' Hp Hj. apply elem_of_seqZ in Hj.
  cbv beta. unfold perm_step. destruct (negb _ && negb _); [|done].
  assert (0 ≤ j * dim + j < dim * dim) as Hin by nia.
  unfold uadd, umul. rewrite (wrap64_small (j * dim)) by nia.
  rewrite wrap64_small by lia.
  rewrite vec_set_Some by lia. split; [done|].
  cbv beta. unfold usize in *. by rewrite length_insert.
Qed.
End Perm.

Lemma cell_div_mod (dim c r : Z) :
  0 ≤ r < dim → (c * dim + r) `div` dim = c ∧ (c * dim + r) `mod` dim = r.
Proof.
  intros. split.
  - rewrite Z.div_add_l by lia. rewrite Z.div_small by lia. lia.
  - rewrite Z.add_comm, Z.mod_add by lia. by apply Z.mod_small.
Qed.

Lemma foldl_perm_step_lookup (dim a b : Z) (perm : cvector_t) (t i : nat) :
  0 < dim → Z.of_nat t ≤ dim → (i < length perm)%nat →
  Z.of_nat (length perm) = dim * dim →
  foldl (perm_step dim a b) perm (seqZ 0 (Z.of_nat t)) !! i =
    if bool_decide (Z.of_nat i `mod` dim = Z.of_nat i `div` dim ∧
                    Z.of_nat i `div` dim < Z.of_nat t ∧
                    Z.of_nat i `div` dim ≠ a ∧ Z.of_nat i `div` dim ≠ b)
    then Some C1 else perm !! i.
Proof.
  intros Hdim Ht Hi Hlen. induction t as [|t IH].
  - change (Z.of_nat 0) with 0. rewrite seqZ_nil by lia. simpl.
    rewrite bool_decide_eq_false_2; [done|].
    intros (_ & H & _). pose proof (Z.div_pos (Z.of_nat i) dim). lia.
  - rewrite seqZ_S, foldl_app. simpl. rewrite Z.add_0_l.
    specialize (IH ltac:(lia)).
    pose proof (Z.div_mod (Z.of_nat i) dim ltac:(lia)) as Hdm.
    unfold perm_step at 1.
    destruct (negb (bool_decide (Z.of_nat t = a)) && negb (bool_decide (Z.of_nat t = b))) eqn:E.
    + apply andb_prop in E as [E1 E2].
      apply negb_true_iff, bool_decide_eq_false in E1.
      apply negb_true_iff, bool_decide_eq_false in E2.
      destruct (decide (i = Z.to_nat (Z.of_nat t * dim + Z.of_nat t))) as [Heq|Hne].
      * rewrite Heq at 1.
        rewrite list_lookup_insert_eq by (rewrite foldl_perm_step_length; nia).
        rewrite bool_decide_eq_true_2; [done|].
        assert (Z.of_nat i = Z.of_nat t * dim + Z.of_nat t) as -> by nia.
        destruct (cell_div_mod dim (Z.of_nat t) (Z.of_nat t)) as [-> ->]; lia.
      * rewrite list_lookup_insert_ne by done. rewrite IH.
        erewrite bool_decide_ext; [reflexivity|].
        split; intros (H1 & H2 & H3 & H4); repeat split; try lia.
        destruct (decide (Z.of_nat i `div` dim = Z.of_nat t)) as [Hc|Hc]; [|lia].
        exfalso. apply Hne. rewrite <- Hc. rewrite <- H1 at 2.
        rewrite (Z.mul_comm _ dim), <- Hdm. lia.
    + rewrite IH. erewrite bool_decide_ext; [reflexivity|].
      split; intros (H1 & H2 & H3 & H4); repeat split; try lia.
      destruct (decide (Z.of_nat i `div` dim = Z.of_nat t)) as [Hc|Hc]; [|lia].
      exfalso. rewrite Hc in H3, H4.
      apply andb_false_iff in E as [E|E]; apply negb_false_iff, bool_decide_eq_true in E; lia.
Qed.

Lemma cell_unique (dim c r c' r' : Z) :
  0 ≤ r < dim → 0 ≤ r' < dim → dim * c + r = c' * dim + r' → c = c' ∧ r = r'.
Proof.
  intros Hr Hr' Heq. apply (Z.div_mod_unique dim); [by left | by left | lia].
Qed.

Lemma swap_matrix_built (dim a b : Z) :
  0 ≤ a < dim → 0 ≤ b < dim → a ≠ b →
  foldl (perm_step dim a b)
        (<[Z.to_nat (b * dim + a) := C1]>
           (<[Z.to_nat (a * dim + b) := C1]> (replicate (Z.to_nat (dim * dim)) C0)))
        (seqZ 0 dim)
  = swap_matrix dim a b.
Proof.
  intros Ha Hb Hab.
  set (zeros := replicate (Z.to_nat (dim * dim)) C0).
  set (p2 := <[Z.to_nat (b * dim + a) := C1]> (<[Z.to_nat (a * dim + b) := C1]> zeros)).
  assert (length p2 = Z.to_nat (dim * dim)) as Hlen.
  { unfold p2, zeros. by rewrite !length_insert, length_replicate. }
  apply list_eq. intros i. unfold swap_matrix. rewrite list_lookup_fmap.
  destruct (decide (Z.of_nat i < dim * dim)) as [Hi|Hi].
  2:{ rewrite lookup_seqZ_ge by lia. simpl. apply lookup_ge_None.
      rewrite foldl_perm_step_length. lia. }
  rewrite lookup_seqZ_lt by done. simpl. rewrite Z.add_0_l.
  replace dim with (Z.of_nat (Z.to_nat dim)) at 2 by lia.
  rewrite foldl_perm_step_lookup by lia.
  pose proof (Z.div_mod (Z.of_nat i) dim ltac:(lia)) as Hdm.
  pose proof (Z.mod_pos_bound (Z.of_nat i) dim ltac:(lia)) as Hr.
  assert (0 ≤ Z.of_nat i `div` dim < dim) as Hc.
  { split; [apply Z.div_pos; lia | apply Z.div_lt_upper_bound; nia]. }
  set (c := Z.of_nat i `div` dim) in *. set (r := Z.of_nat i `mod` dim) in *.
  clearbody c r.
  assert (p2 !! i = Some (if bool_decide ((c = b ∧ r = a) ∨ (c = a ∧ r = b))
                          then C1 else C0)) as Hp2.
  { unfold p2.
    destruct (decide (i = Z.to_nat (b * dim + a))) as [Heq|Hne1].
    - rewrite Heq at 1.
      rewrite list_lookup_insert_eq by (unfold zeros; rewrite length_insert, length_replicate; nia).
      rewrite bool_decide_eq_true_2; [done|]. left.
      apply (cell_unique dim); [lia..|]. rewrite <- Hdm. nia.
    - rewrite list_lookup_insert_ne by done.
      destruct (decide (i = Z.to_nat (a * dim + b))) as [Heq|Hne2].
      + rewrite Heq at 1.
        rewrite list_lookup_insert_eq by (unfold zeros; rewrite length_replicate; nia).
        rewrite bool_decide_eq_true_2; [done|]. right.
        apply (cell_unique dim); [lia..|]. rewrite <- Hdm. nia.
      + rewrite list_lookup_insert_ne by done.
        unfold zeros. rewrite lookup_replicate_2 by lia.
        rewrite bool_decide_eq_false_2; [done|].
        intros [[-> ->]|[-> ->]]; [apply Hne1 | apply Hne2]; lia. }
  rewrite Hp2. unfold swap_states.
  repeat case_bool_decide; try done; exfalso; intuition lia.
Qed.

Lemma ushl_1 (k : Z) : 0 ≤ k < 64 → ushl 1 k = 2 ^ k.
Proof.
  intros. unfold ushl. rewrite Z.shiftl_1_l. apply wrap64_small.
  split; [apply Z.pow_nonneg; lia | apply Z.pow_lt_mono_r; lia].
Qed.

Lemma pow2_square_bound (k : Z) : 0 ≤ k < 32 → 2 ^ k * 2 ^ k < 2 ^ 64.
Proof.
  intros. rewrite <- Z.pow_add_r by lia. apply Z.pow_lt_mono_r; lia.
Qed.

Lemma bind_Ok {S A B} (m : M S A) (k : A → M S B) (st st' : S) (a : A) :
  m st = Ok a st' → bind m k st = k a st'.
Proof. intros E. unfold bind. by rewrite E. Qed.

Lemma bind_access_Some {S A B} (a : A) (k : A → M S B) (st : S) :
  bind (access (Some a)) k st = k a st.
Proof. done. Qed.

Lemma bind_gets {S A B} (f : S → A) (k : A → M S B) (st : S) :
  bind (gets f) k st = k (f st) st.
Proof. done. Qed.

Section MeasureResetUpdate.
Context {densmat_t creg_t rng_t result_t : Type}.
Context `{!DensityMatrix densmat_t, !RngEngine rng_t,
          !ClassicalRegister creg_t rng_t,
          !ExperimentResult result_t creg_t, !Helpers}.
#[local] Abbreviation Sim := (Sim densmat_t creg_t rng_t result_t).

Lemma apply_diagonal_unitary_matrix_returns qubits diag (st : Sim) :
  ∃ st', apply_diagonal_unitary_matrix qubits diag st = Ok tt st'.
Proof.
  unfold apply_diagonal_unitary_matrix.
  destruct (chunk_id_outside_kernel st); [|by eexists].
  destruct (Chunk_block_diagonal_matrix _ _ _ _) as [qubits_in diag_in].
  destruct (bool_decide _); [by eexists|].
  destruct (Chunk_block_diagonal_matrix _ _ _ _) as [? diag_row]. by eexists.
Qed.

Lemma build_swap_matrix (qubits : reg_t) (dim a b : Z) (st : Sim) :
  0 ≤ a < dim → 0 ≤ b < dim → a ≠ b → dim * dim < 2 ^ 64 →
  (do perm <- access (vec_set (replicate (Z.to_nat (umul dim dim)) C0)
                        (uadd (umul a dim) b) C1);
   do perm <- access (vec_set perm (uadd (umul b dim) a) C1);
   do perm <- perm_diagonal dim a b perm;
   on_qreg (qreg_apply_unitary_matrix qubits perm)) st
  = on_qreg (qreg_apply_unitary_matrix qubits (swap_matrix dim a b)) st.
Proof.
  intros Ha Hb Hab Hsq.
  assert (0 ≤ a * dim + b < dim * dim) by nia.
  assert (0 ≤ b * dim + a < dim * dim) by nia.
  unfold uadd, umul.
  rewrite (wrap64_small (dim * dim)), (wrap64_small (a * dim)),
    (wrap64_small (b * dim)) by nia.
  rewrite !wrap64_small by lia.
  unfold bind at 1.
  rewrite vec_set_Some by (rewrite usize_replicate; lia). simpl.
  unfold bind at 1.
  rewrite vec_set_Some by (unfold usize; rewrite length_insert, length_replicate; lia).
  simpl. unfold bind at 1.
  rewrite perm_diagonal_pure;
    [|lia|lia|unfold usize; rewrite !length_insert, length_replicate; lia].
  by rewrite swap_matrix_built.
Qed.

(** What [measure_reset_update] does for an outcome and a final state
    among the [2^k] basis states. *)
Lemma measure_reset_update_eq
    (qubits : reg_t) (final_state meas_state : uint_t) (meas_prob : float) (st : Sim) :
  usize qubits < 64 →
  (final_state ≠ meas_state → usize qubits < 32) →
  0 ≤ meas_state < 2 ^ usize qubits →
  0 ≤ final_state < 2 ^ usize qubits →
  measure_reset_update qubits final_state meas_state meas_prob st =
    (apply_diagonal_unitary_matrix qubits
       (projector_diag (2 ^ usize qubits) meas_state (renorm meas_prob));;
     if bool_decide (final_state = meas_state) then ret tt
     else match qubits with
          | [q0] => on_qreg (qreg_apply_x q0)
          | _ => on_qreg (qreg_apply_unitary_matrix qubits
                            (swap_matrix (2 ^ usize qubits) final_state meas_state))
          end) st.
Proof.
  intros Hk Hk' Hm Hf. unfold measure_reset_update.
  assert (0 ≤ usize qubits) as Hk0 by (unfold usize; lia).
  destruct (apply_diagonal_unitary_matrix_returns qubits
              (projector_diag (2 ^ usize qubits) meas_state (renorm meas_prob)) st)
    as [st' Hdiag].
  rewrite (bind_Ok _ _ _ _ _ Hdiag).
  case_bool_decide as Hone.
  - destruct qubits as [|q0 [|q1 qs]]; try (unfold usize in Hone; simpl in Hone; lia).
    rewrite Hone in *. change (2 ^ 1) with 2 in *.
    change 2%nat with (Z.to_nat 2).
    rewrite vec_set_projector, bind_access_Some by lia.
    rewrite (bind_Ok _ _ _ _ _ Hdiag).
    by case_bool_decide.
  - rewrite ushl_1 by lia.
    rewrite vec_set_projector, bind_access_Some by lia.
    rewrite (bind_Ok _ _ _ _ _ Hdiag).
    case_bool_decide as Hfm; simpl; [done|].
    rewrite build_swap_matrix; [|lia|lia|done|apply pow2_square_bound; lia].
    by destruct qubits as [|q0 [|q1 qs]].
Qed.
End MeasureResetUpdate.

(** ** measure_reset_update: what is applied (C3) *)

Section Collapse.
Context {densmat_t creg_t rng_t result_t : Type}.
Context `{!DensityMatrix densmat_t, !RngEngine rng_t,
          !ClassicalRegister creg_t rng_t,
          !ExperimentResult result_t creg_t, !Helpers}.
#[local] Abbreviation Sim := (Sim densmat_t creg_t rng_t result_t).

(** C3: over [k] qubits, with the sampled outcome and the final state
    among the [2^k] basis states, [measure_reset_update] hands the
    diagonal path the projector of size [2^k] whose only entry that can
    differ from zero is [1/sqrt(meas_prob)] at [meas_state]; then, if the
    final state differs from the outcome, it applies X to the qubit
    (k = 1) or the permutation matrix that swaps the two basis states as
    a dense unitary (k > 1). *)
Theorem measure_reset_update_projects_then_swaps
    (qubits : reg_t) (final_state meas_state : uint_t) (meas_prob : float) (st : Sim) :
  usize qubits < 32 →
  0 ≤ meas_state < 2 ^ usize qubits →
  0 ≤ final_state < 2 ^ usize qubits →
  measure_reset_update qubits final_state meas_state meas_prob st =
    (apply_diagonal_unitary_matrix qubits
       (projector_diag (2 ^ usize qubits) meas_state
          (complex_of_real (1 / PrimFloat.sqrt meas_prob)%float));;
     if bool_decide (final_state = meas_state) then ret tt
     else match qubits with
          | [q0] => on_qreg (qreg_apply_x q0)
          | _ => on_qreg (qreg_apply_unitary_matrix qubits
                            (swap_matrix (2 ^ usize qubits) final_state meas_state))
          end) st.
Proof. intros Hk Hm Hf. apply measure_reset_update_eq; [lia|done..]. Qed.
End Collapse.

(** C3, witness: two qubits, outcome 1 of probability 1/4, reset to state 2. *)
Lemma measure_reset_update_projects_then_swaps_witness :
  measure_reset_update [0; 1] 2 1 0.25%float
    (Double.fresh 2 [] 1%float [] [] [] [] true)
  = Ok tt (set_qreg
             (λ q, Double.record
                     (Double.apply_unitary_matrix_ [0; 1] (swap_matrix 4 2 1))
                     (Double.record
                        (Double.apply_diagonal_unitary_matrix_ [0; 1]
                           [C0; Cplx 2%float 0%float; C0; C0]) q))
             (Double.fresh 2 [] 1%float [] [] [] [] true)).
Proof.
  rewrite (measure_reset_update_projects_then_swaps [0; 1] 2 1 0.25%float);
    [reflexivity | by compute | by compute | by compute].
Defined.

(** ** measure_reset_update: no report of a degenerate probability (C1) *)

Section Degenerate.
Context {densmat_t creg_t rng_t result_t : Type}.
Context `{!DensityMatrix densmat_t, !RngEngine rng_t,
          !ClassicalRegister creg_t rng_t,
          !ExperimentResult result_t creg_t, !Helpers}.
#[local] Abbreviation Sim := (Sim densmat_t creg_t rng_t result_t).



End Degenerate.



Lemma qubits_wf_submseteq (n : Z) (qubits : reg_t) :
  qubits_wf n qubits → qubits ⊆+ seqZ 0 n.
Proof.
  intros [Hnd Hin]. apply NoDup_submseteq; [done|].
  intros q Hq. apply elem_of_seqZ. specialize (Hin q Hq). lia.
Qed.

Lemma covers_iff_size (n : Z) (qubits : reg_t) :
  0 ≤ n → qubits_wf n qubits →
  usize qubits = n ↔ covers_register n qubits.
Proof.
  intros Hn Hwf. pose proof (qubits_wf_submseteq n qubits Hwf) as Hsub.
  unfold usize. split.
  - intros Hlen q Hq.
    assert (qubits ≡ₚ seqZ 0 n) as ->.
    { apply submseteq_length_Permutation; [done|]. rewrite length_seqZ. lia. }
    apply elem_of_seqZ. lia.
  - intros Hcov.
    assert (seqZ 0 n ⊆+ qubits) as Hsup.
    { apply NoDup_submseteq; [apply NoDup_seqZ|].
      intros q Hq. apply elem_of_seqZ in Hq. apply Hcov. lia. }
    apply submseteq_length in Hsub, Hsup. rewrite length_seqZ in *. lia.
Qed.

(** ** apply_save_state: the full-register check (C5) *)

Section SaveState.
Context {densmat_t creg_t rng_t result_t : Type}.
Context `{!DensityMatrix densmat_t, !RngEngine rng_t,
          !ClassicalRegister creg_t rng_t,
          !ExperimentResult result_t creg_t, !Helpers}.
#[local] Abbreviation Sim := (Sim densmat_t creg_t rng_t result_t).

Lemma no_throw_save key v t sub : no_throw (S := Sim) (save key v t sub).
Proof. apply no_throw_modify. Qed.

Lemma no_throw_move_to_matrix : no_throw (S := Sim) move_to_matrix.
Proof.
  intros st e st'. unfold move_to_matrix. by destruct (qreg_move_to_matrix _).
Qed.

(** The function leaves by the exception exactly when the operand count
    differs from the register size, and then in the state it was
    called in. *)
Lemma apply_save_state_throws (op : Op) (last_op : bool) (st : Sim) :
  (usize (op_qubits op) ≠ qreg_num_qubits (qreg_ st) →
   apply_save_state op last_op st = Throw (not_all_qubits op) st)
  ∧ (usize (op_qubits op) = qreg_num_qubits (qreg_ st) →
     ∀ e st', apply_save_state op last_op st ≠ Throw e st').
Proof.
  unfold apply_save_state, num_qubits. rewrite bind_gets.
  split; intros Hsize.
  - by rewrite bool_decide_eq_false_2.
  - rewrite bool_decide_eq_true_2 by done. simpl.
    apply no_throw_bind; [apply no_throw_access|]. intros s0.
    destruct last_op.
    + apply no_throw_bind; [apply no_throw_move_to_matrix|]. intros m. apply no_throw_save.
    + apply no_throw_bind; [apply no_throw_gets|]. intros m. apply no_throw_save.
Qed.

(** C5: for a well-formed operand list, [apply_save_state] throws if and
    only if the list does not cover the register; the exception is the
    one that names the operation, and it leaves the state (buffer,
    classical register, results) as it was. *)
Theorem apply_save_state_throws_iff_not_all_qubits
    (op : Op) (last_op : bool) (st : Sim) :
  0 ≤ qreg_num_qubits (qreg_ st) →
  qubits_wf (qreg_num_qubits (qreg_ st)) (op_qubits op) →
  ((∃ e st', apply_save_state op last_op st = Throw e st')
   ↔ ¬ covers_register (qreg_num_qubits (qreg_ st)) (op_qubits op))
  ∧ (∀ e st', apply_save_state op last_op st = Throw e st' →
              e = not_all_qubits op ∧ st' = st).
Proof.
  intros Hn Hwf.
  destruct (apply_save_state_throws op last_op st) as [Hne Heq].
  rewrite <- (covers_iff_size _ _ Hn Hwf).
  destruct (decide (usize (op_qubits op) = qreg_num_qubits (qreg_ st))) as [E|E].
  - split.
    + split; [|done]. intros (e & st' & Hthrow). by destruct (Heq E e st').
    + intros e st' Hthrow. by destruct (Heq E e st').
  - rewrite (Hne E). split.
    + split; [done|]. intros _. by eexists _, _.
    + intros e st' [= <- <-]. done.
Qed.
End SaveState.

(** C5, witness: a two-qubit register and a save on qubit 0 alone. *)
Lemma apply_save_state_throws_iff_not_all_qubits_witness :
  apply_save_state (save_state_op [0]) false (Double.fresh 2 [] 1%float [] [] [] [] true)
  = Throw (not_all_qubits (save_state_op [0]))
          (Double.fresh 2 [] 1%float [] [] [] [] true).
Proof.
  destruct (apply_save_state_throws_iff_not_all_qubits (save_state_op [0]) false
              (Double.fresh 2 [] 1%float [] [] [] [] true)) as [Hiff Hst].
  - by compute.
  - split; [apply NoDup_singleton|].
    intros q Hq. apply list_elem_of_singleton in Hq as ->. by compute.
  - destruct (proj2 Hiff) as (e & st' & Hthrow).
    + intros Hcov. specialize (Hcov 1 ltac:(by compute)).
      by apply list_elem_of_singleton in Hcov.
    + rewrite Hthrow. by destruct (Hst e st' Hthrow) as [-> ->].
Defined.

(** ** apply_gate: chunks that a controlled gate does not touch (C2) *)

Section ChunkFilter.
Context {densmat_t creg_t rng_t result_t : Type}.
Context `{!DensityMatrix densmat_t, !RngEngine rng_t,
          !ClassicalRegister creg_t rng_t,
          !ExperimentResult result_t creg_t, !Helpers}.
#[local] Abbreviation Sim := (Sim densmat_t creg_t rng_t result_t).

(** C2: where the state class filters chunks itself (more global than
    local qubits, no global indexing in the buffer), a controlled gate
    with a control outside the chunk, on a chunk whose index carries the
    control bits neither on the row side nor on the column side, returns
    at once: same buffer, same everything. *)
Theorem apply_gate_skips_uncontrolled_chunk (fuel : nat) (op : Op) (st : Sim) :
  chunk_id_outside_kernel st = true →
  is_ctrl_name (op_name op) = true →
  global_ctrl_qubits op st ≠ [] →
  ctrl_chunk st (ctrl_mask (qreg_num_qubits (qreg_ st)) (global_ctrl_qubits op st)) = false →
  ctrl_chunk_sp st (ctrl_mask (qreg_num_qubits (qreg_ st)) (global_ctrl_qubits op st)) = false →
  apply_gate (S fuel) op st = Ok tt st.
Proof.
  unfold global_ctrl_qubits. intros Hchunk Hname Hout Hrow Hcol. simpl.
  rewrite Hchunk, Hname.
  destruct (Chunk_get_inout_ctrl_qubits op _) as [qubits_in qubits_out].
  simpl in *.
  rewrite bool_decide_eq_true_2.
  - by rewrite Hrow, Hcol.
  - destruct qubits_out; [done|]. unfold usize. simpl. lia.
Qed.
End ChunkFilter.

(** C2, witness: a [cx] whose control is the global qubit 1 of a two-qubit
    simulation cut into one-qubit chunks, seen from chunk 0. *)
Lemma apply_gate_skips_uncontrolled_chunk_witness :
  apply_gate 1 (Double.gate_op "cx" [1; 0]) (Double.chunk 2 1 0)
  = Ok tt (Double.chunk 2 1 0).
Proof.
  apply (apply_gate_skips_uncontrolled_chunk 0 (Double.gate_op "cx" [1; 0])
           (Double.chunk 2 1 0)); by vm_compute.
Defined.

(** ** apply_op: the dispatcher (C6, C8) *)

Section Dispatcher.
Context {densmat_t creg_t rng_t result_t : Type}.
Context `{!DensityMatrix densmat_t, !RngEngine rng_t,
          !ClassicalRegister creg_t rng_t,
          !ExperimentResult result_t creg_t, !Helpers}.
#[local] Abbreviation Sim := (Sim densmat_t creg_t rng_t result_t).
Variable save_expval : Op → M Sim unit.


(** C8: [apply_matrix] sends a matrix of exactly one row, vectorised, to
    the diagonal path and every other matrix, vectorised, to the dense
    unitary kernel; a [matrix] operation whose conditional holds is
    dispatched to [apply_matrix] with its first matrix. *)
Theorem apply_matrix_routes_by_rows :
  (∀ (qubits : reg_t) (mat : cmatrix_t) (st : Sim),
     apply_matrix qubits mat st =
       if bool_decide (GetRows mat = 1)
       then apply_diagonal_unitary_matrix qubits (Utils_vectorize_matrix mat) st
       else Ok tt (set_qreg (qreg_apply_unitary_matrix qubits
                               (Utils_vectorize_matrix mat)) st))
  ∧ (∀ (fuel : nat) (op : Op) (final_ops : bool) (st : Sim) (mat : cmatrix_t),
       op_type op = OpType.matrix →
       creg_check_conditional (creg st) op = true →
       head (op_mats op) = Some mat →
       apply_op save_expval fuel op final_ops st = apply_matrix (op_qubits op) mat st).
Proof.
  split.
  - intros qubits mat st. unfold apply_matrix. by case_bool_decide.
  - intros fuel op final_ops st mat Hkind Hcond Hmat. unfold apply_op.
    rewrite Hcond, Hkind.
    destruct (op_mats op) as [|m ms]; [done|].
    by injection Hmat as ->.
Qed.
End Dispatcher.

(** Every gate name that [StateOpSet] declares is a key of [gateset_], and
    [gateset_] has no other key. *)
Lemma gateset_names : dom gateset_ = list_to_set StateOpSet_gates.
Proof. by vm_compute. Qed.

(** The kinds that [StateOpSet] declares and the dispatcher has no case
    for are [jump] and [mark]. *)
Lemma StateOpSet_not_dispatched :
  filter (λ t, dispatched t = false) StateOpSet_optypes = [OpType.jump; OpType.mark].
Proof. reflexivity. Qed.



(** C8, witness: a 1 x 2 matrix on one qubit reaches the diagonal kernel. *)
Lemma apply_matrix_routes_by_rows_witness :
  apply_op Double.no_save_expval 1
    (matrix_op [0] (Matrix 1 2 [C1; Cplx 0%float 1%float])) false
    (Double.fresh 1 [] 1%float [] [] [] [] true)
  = Ok tt (set_qreg (Double.record
                       (Double.apply_diagonal_unitary_matrix_ [0]
                          [C1; Cplx 0%float 1%float]))
             (Double.fresh 1 [] 1%float [] [] [] [] true)).
Proof.
  destruct (apply_matrix_routes_by_rows Double.no_save_expval) as [Hroute Hop].
  rewrite (Hop 1%nat _ false _ (Matrix 1 2 [C1; Cplx 0%float 1%float]));
    [|done..].
  by rewrite Hroute.
Defined.

(** ** sample_measure: sampling without collapse (C9) *)

Section SampleMeasure.
Context {densmat_t creg_t rng_t result_t : Type}.
Context `{!DensityMatrix densmat_t, !RngEngine rng_t,
          !ClassicalRegister creg_t rng_t,
          !ExperimentResult result_t creg_t, !Helpers}.
#[local] Abbreviation Sim := (Sim densmat_t creg_t rng_t result_t).
#[local] Abbreviation same := (same_but_rng (densmat_t := densmat_t) (creg_t := creg_t)
                                (rng_t := rng_t) (result_t := result_t)).

#[local] Instance same_but_rng_preorder : PreOrder same.
Proof.
  split.
  - by intros [].
  - intros [] [] [] E1 E2. unfold same, set_rng in *. simpl in *. congruence.
Qed.

Lemma keeps_rand (a b : float) : keeps same (rand a b).
Proof.
  intros st x st'. unfold rand. destruct (rng_rand a b (rng st)) as [y g].
  intros [= _ <-]. by destruct st.
Qed.

Lemma returns_rand (a b : float) : returns (S := Sim) (rand a b).
Proof.
  intros st. unfold rand. destruct (rng_rand a b (rng st)) as [y g]. by eexists _, _.
Qed.

Lemma keeps_sample_measure (qubits : reg_t) (shots : uint_t) :
  keeps same (sample_measure qubits shots).
Proof.
  unfold sample_measure.
  apply (keeps_bind same).
  { apply (keeps_for_fold same). intros rnds i.
    apply (keeps_bind same); [apply keeps_rand|].
    intros x. apply (keeps_ret same). }
  intros rnds. apply (keeps_bind same); [apply (keeps_gets same)|].
  intros allbit_samples.
  apply (keeps_bind same); [apply (keeps_gets same)|].
  intros nq. apply (keeps_for_fold same). intros all_samples val.
  apply (keeps_bind same); [|intros; apply (keeps_ret same)].
  apply (keeps_for_fold same). intros sample q.
  apply (keeps_bind same); [apply (keeps_access same)|].
  intros; apply (keeps_ret same).
Qed.

(** C9: whenever [sample_measure] returns, the buffer is the one it was
    called with (and so are the classical register and the results: only
    the random-number engine has advanced); it never throws; and it does
    return when every requested qubit is a position of the bit lists that
    [int2reg] produces. *)
Theorem sample_measure_keeps_buffer (qubits : reg_t) (shots : uint_t) (st : Sim) :
  (∀ samples st', sample_measure qubits shots st = Ok samples st' →
     qreg_ st' = qreg_ st ∧ creg st' = creg st ∧ result st' = result st)
  ∧ (∀ e st', sample_measure qubits shots st ≠ Throw e st')
  ∧ ((∀ val q, q ∈ qubits →
        0 ≤ q < usize (Utils_int2reg val 2 (qreg_num_qubits (qreg_ st)))) →
     ∃ samples st', sample_measure qubits shots st = Ok samples st').
Proof.
  split; [|split].
  - intros samples st' Hret. apply keeps_sample_measure in Hret.
    unfold same in Hret. by rewrite Hret.
  - revert st. unfold sample_measure.
    apply no_throw_bind.
    { apply no_throw_for_fold. intros rnds i. apply no_throw_bind.
      - intros st e st'. by destruct (returns_rand 0%float 1%float st) as (x & s & ->).
      - intros x. apply no_throw_ret. }
    intros rnds. apply no_throw_bind; [apply no_throw_gets|]. intros allbit.
    apply no_throw_bind; [apply no_throw_gets|]. intros nq.
    apply no_throw_for_fold. intros all_samples val.
    apply no_throw_bind; [|intros; apply no_throw_ret].
    apply no_throw_for_fold. intros sample q.
    apply no_throw_bind; [apply no_throw_access | intros; apply no_throw_ret].
  - intros Hbits. unfold sample_measure.
    destruct (returns_for_fold (S := Sim) (seqZ 0 shots)
                (λ rnds _, do x <- rand 0%float 1%float; ret (rnds ++ [x])) [])
      with (st := st) as (rnds & st1 & Hrnds).
    { intros rnds i _. apply returns_bind; [apply returns_rand|].
      intros x. apply returns_ret. }
    rewrite (bind_Ok _ _ _ _ _ Hrnds), bind_gets. unfold num_qubits.
    rewrite bind_gets.
    assert (qreg_ st1 = qreg_ st) as Hq.
    { eapply (keeps_for_fold same) in Hrnds.
      - unfold same in Hrnds. by rewrite Hrnds.
      - intros rnds' i. apply (keeps_bind same); [apply keeps_rand|].
        intros x. apply (keeps_ret same). }
    rewrite Hq. apply returns_for_fold. intros all_samples val _.
    apply returns_bind; [|intros; apply returns_ret].
    apply returns_for_fold. intros sample q Hq'.
    apply returns_bind; [|intros; apply returns_ret].
    specialize (Hbits val q Hq'). unfold vec_at.
    rewrite bool_decide_eq_true_2 by lia.
    destruct (lookup_lt_is_Some_2 (Utils_int2reg val 2 (qreg_num_qubits (qreg_ st)))
                (Z.to_nat q)) as [b ->]; [unfold usize in Hbits; lia|].
    apply returns_ret.
Qed.
End SampleMeasure.

(** C9, witness: two shots on qubit 1 of a two-qubit register. *)
Lemma sample_measure_keeps_buffer_witness :
  ∃ st',
    sample_measure [1] 2
      (Double.fresh 2 [] 1%float [] [2; 1] [0.75%float; 0.25%float] [] true)
    = Ok [[1]; [0]] st'
    ∧ qreg_ st' = qreg_ (Double.fresh 2 [] 1%float [] [2; 1] [0.75%float; 0.25%float] [] true).
Proof.
  destruct (sample_measure_keeps_buffer [1] 2
              (Double.fresh 2 [] 1%float [] [2; 1] [0.75%float; 0.25%float] [] true))
    as (Hkeep & _ & _).
  eexists. split; [reflexivity|]. by apply (Hkeep [[1]; [0]]).
Defined.

(** ** apply_measure: one outcome for the collapse and for the record (C10) *)

Section Measure.
Context {densmat_t creg_t rng_t result_t : Type}.
Context `{!DensityMatrix densmat_t, !RngEngine rng_t,
          !ClassicalRegister creg_t rng_t,
          !ExperimentResult result_t creg_t, !Helpers}.
#[local] Abbreviation Sim := (Sim densmat_t creg_t rng_t result_t).

Lemma sample_measure_with_prob_picks (qubits : reg_t) (st : Sim) (p : float) :
  let probs := measure_probs qubits st in
  vec_at probs (fst (rng_rand_int probs (rng st))) = Some p →
  sample_measure_with_prob qubits st =
    Ok (fst (rng_rand_int probs (rng st)), p)
       (set_rng (snd (rng_rand_int probs (rng st))) st).
Proof.
  intros probs Hat. unfold sample_measure_with_prob.
  rewrite bind_gets. fold probs. unfold bind at 1, rand_int.
  destruct (rng_rand_int probs (rng st)) as [m g]. simpl in *.
  unfold bind. by rewrite Hat.
Qed.

(** C10: let [m] be the outcome that the random-number engine picks from
    the [2^k] marginal probabilities and [p] its probability. Then
    [apply_measure] applies the projector onto [m] (renormalised by
    [1/sqrt p]) through the diagonal path and nothing else to the buffer
    (no bit flip, no permutation), and stores the bits of that same [m]
    in the classical register. *)
Theorem apply_measure_collapses_onto_stored_outcome
    (qubits cmemory cregister : reg_t) (st : Sim) :
  let probs := measure_probs qubits st in
  let m := fst (rng_rand_int probs (rng st)) in
  let g := snd (rng_rand_int probs (rng st)) in
  usize qubits < 64 →
  usize probs = 2 ^ usize qubits →
  0 ≤ m < usize probs →
  ∃ p st1,
    vec_at probs m = Some p
    ∧ apply_diagonal_unitary_matrix qubits
        (projector_diag (2 ^ usize qubits) m
           (complex_of_real (1 / PrimFloat.sqrt p)%float))
        (set_rng g st) = Ok tt st1
    ∧ apply_measure qubits cmemory cregister st =
        Ok tt (set_creg (creg_store_measure (Utils_int2reg m 2 (usize qubits))
                           cmemory cregister) st1).
Proof.
  intros probs m g Hk Hlen Hm.
  destruct (lookup_lt_is_Some_2 probs (Z.to_nat m)) as [p Hp];
    [unfold usize in Hm; lia|].
  assert (vec_at probs m = Some p) as Hat.
  { unfold vec_at. by rewrite bool_decide_eq_true_2 by lia. }
  destruct (apply_diagonal_unitary_matrix_returns qubits
              (projector_diag (2 ^ usize qubits) m (renorm p)) (set_rng g st))
    as [st1 Hdiag].
  exists p, st1. split; [done|]. split; [done|].
  unfold apply_measure.
  rewrite (bind_Ok _ _ _ _ _ (sample_measure_with_prob_picks qubits st p Hat)).
  simpl. fold probs m g.
  unfold bind at 1.
  rewrite measure_reset_update_eq; [|lia|done|lia|lia].
  rewrite (bind_Ok _ _ _ _ _ Hdiag).
  by rewrite bool_decide_eq_true_2.
Qed.
End Measure.

(** C10, witness: one qubit measured with outcome 1 of probability 1/4. *)
Lemma apply_measure_collapses_onto_stored_outcome_witness :
  ∃ st',
    apply_measure [0] [0] [] (Double.fresh 1 [] 1%float [0.75%float; 0.25%float] [] [] [1] true)
    = Ok tt st'
    ∧ Double.spy_calls (qreg_ st') =
        [Double.apply_diagonal_unitary_matrix_ [0] [C0; Cplx 2%float 0%float]]
    ∧ Double.stored (creg st') = [([1], [0], [])].
Proof.
  destruct (apply_measure_collapses_onto_stored_outcome [0] [0] []
              (Double.fresh 1 [] 1%float [0.75%float; 0.25%float] [] [] [1] true))
    as (p & st1 & Hp & Hdiag & Hret); [by compute..|].
  eexists. split; [exact Hret|].
  injection Hp as <-. injection Hdiag as <-. split; reflexivity.
Defined.

(** ** reduced_density_matrix: trace, full matrix, partial trace (C4) *)

(** *** Loops that rewrite every cell of an array *)








Section PartialTrace.
Context {densmat_t creg_t rng_t result_t : Type}.
Context `{!DensityMatrix densmat_t, !RngEngine rng_t,
          !ClassicalRegister creg_t rng_t,
          !ExperimentResult result_t creg_t, !Helpers}.
#[local] Abbreviation Sim := (Sim densmat_t creg_t rng_t result_t).



End PartialTrace.

(** *** Sorted operand lists *)




Section ReducedDensityMatrix.
Context {densmat_t creg_t rng_t result_t : Type}.
Context `{!DensityMatrix densmat_t, !RngEngine rng_t,
          !ClassicalRegister creg_t rng_t,
          !ExperimentResult result_t creg_t, !Helpers}.
#[local] Abbreviation Sim := (Sim densmat_t creg_t rng_t result_t).

End ReducedDensityMatrix.


(** ** apply_pauli: a Pauli string as a superoperator (C7) *)

Module PauliReferenceFacts.
Import PauliReference.

Lemma Cmul_comm (a b : C) : Cmul a b = Cmul b a.
Proof. unfold Cmul. f_equal; ring. Qed.

Lemma Cmul_assoc (a b c : C) : Cmul a (Cmul b c) = Cmul (Cmul a b) c.
Proof. unfold Cmul. simpl. f_equal; ring. Qed.

Lemma Cmul_1_l (a : C) : Cmul (C_of_Z 1) a = a.
Proof. destruct a. unfold Cmul, C_of_Z. simpl. f_equal; ring. Qed.

Lemma Copp_mul (a : C) : Copp a = Cmul (C_of_Z (-1)) a.
Proof. unfold Copp, Cmul, C_of_Z. simpl. f_equal; ring. Qed.

Lemma C_of_Z_mul (x y : Z) : C_of_Z (x * y) = Cmul (C_of_Z x) (C_of_Z y).
Proof. unfold Cmul, C_of_Z. simpl. rewrite mult_IZR. f_equal; ring. Qed.

Lemma testbit_flip (q q' i : Z) :
  0 ≤ q → 0 ≤ q' → q ≠ q' → Z.testbit (flip q' i) q = Z.testbit i q.
Proof.
  intros Hq Hq' Hne. unfold flip.
  rewrite Z.lxor_spec, Z.pow2_bits_false by done. apply xorb_false_r.
Qed.

Lemma flip_comm (q q' i : Z) : flip q (flip q' i) = flip q' (flip q i).
Proof. unfold flip. rewrite !Z.lxor_assoc. f_equal. apply Z.lxor_comm. Qed.

Lemma sigma_conj (l : letter) (q : Z) (v : amplitudes) :
  sigma true l q v = scale (conj_sign l) (sigma false l q v).
Proof.
  apply functional_extensionality. intros i. unfold scale.
  destruct l; simpl; rewrite ?Cmul_1_l; try done.
  rewrite Cmul_assoc. f_equal.
  unfold phase_Y. destruct (Z.testbit i q); simpl;
    unfold Cmul, Copp, Ci, C_of_Z; simpl; f_equal; ring.
Qed.

Lemma sigma_scale (c : bool) (l : letter) (q k : Z) (v : amplitudes) :
  sigma c l q (scale k v) = scale k (sigma c l q v).
Proof.
  apply functional_extensionality. intros i. unfold scale.
  destruct l; simpl; try done.
  - rewrite !Cmul_assoc. f_equal. apply Cmul_comm.
  - destruct (Z.testbit i q); [|done].
    rewrite !Copp_mul, !Cmul_assoc. f_equal. apply Cmul_comm.
Qed.

Lemma scale_scale (k k' : Z) (v : amplitudes) :
  scale k (scale k' v) = scale (k * k') v.
Proof.
  apply functional_extensionality. intros i. unfold scale.
  by rewrite Cmul_assoc, C_of_Z_mul.
Qed.

(** Pauli matrices on different index bits commute *)
Lemma sigma_comm (c c' : bool) (l l' : letter) (q q' : Z) (v : amplitudes) :
  0 ≤ q → 0 ≤ q' → q ≠ q' →
  sigma c l q (sigma c' l' q' v) = sigma c' l' q' (sigma c l q v).
Proof.
  intros Hq Hq' Hne. apply functional_extensionality. intros i.
  destruct l, l'; simpl;
    rewrite ?(testbit_flip q q'), ?(testbit_flip q' q), ?(flip_comm q q') by done;
    try done.
  - rewrite !Cmul_assoc. f_equal. apply Cmul_comm.
  - destruct (Z.testbit i q'); [|done].
    by rewrite !Copp_mul, !Cmul_assoc, (Cmul_comm (C_of_Z (-1))).
  - destruct (Z.testbit i q); [|done].
    by rewrite !Copp_mul, !Cmul_assoc, (Cmul_comm (C_of_Z (-1))).
  - by destruct (Z.testbit i q), (Z.testbit i q').
Qed.

Lemma sigma_on_bits (c : bool) (l : letter) (q : Z) (qs : list Z) (ls : list letter)
    (v : amplitudes) :
  0 ≤ q → q ∉ qs → (∀ x, x ∈ qs → 0 ≤ x) →
  sigma c l q (on_bits qs ls v) = on_bits qs ls (sigma c l q v).
Proof.
  intros Hq. revert ls. induction qs as [|x qs IH]; intros ls Hnot Hpos; [done|].
  destruct ls as [|l' ls]; [done|]. simpl.
  apply not_elem_of_cons in Hnot as [Hne Hnot].
  rewrite sigma_comm; [|done|apply Hpos; left|done].
  rewrite IH; [done..|]. intros y Hy. apply Hpos. by right.
Qed.

Lemma on_bits_app (qs qs' : list Z) (ls ls' : list letter) (v : amplitudes) :
  length qs = length ls →
  on_bits (qs ++ qs') (ls ++ ls') v = on_bits qs ls (on_bits qs' ls' v).
Proof.
  revert ls. induction qs as [|q qs IH]; intros [|l ls] Hlen; try done.
  simpl. rewrite IH; [done|]. simpl in Hlen. lia.
Qed.

Lemma on_bits_scale (k : Z) (qs : list Z) (ls : list letter) (v : amplitudes) :
  on_bits qs ls (scale k v) = scale k (on_bits qs ls v).
Proof.
  revert ls. induction qs as [|q qs IH]; intros [|l ls]; try done.
  simpl. by rewrite IH, sigma_scale.
Qed.

Lemma count_Y_nonneg (ls : list letter) : 0 ≤ count_Y ls.
Proof. induction ls as [|[] ls IH]; simpl; lia. Qed.

(** The doubled string with the sign of its Y letters is the product of
    the one-qubit gates. *)
Lemma doubled_string_is_product (n : Z) (qs : list Z) (ls : list letter)
    (v : amplitudes) :
  NoDup qs → (∀ q, q ∈ qs → 0 ≤ q < n) → length qs = length ls →
  scale ((-1) ^ count_Y ls) (on_bits (superop_qubits n qs) (ls ++ ls) v)
  = apply_gates n qs ls v.
Proof.
  unfold superop_qubits.
  revert ls v. induction qs as [|q qs IH]; intros [|l ls] v Hnd Hin Hlen; try done.
  { simpl. apply functional_extensionality. intros i. apply Cmul_1_l. }
  apply NoDup_cons in Hnd as [Hq Hnd].
  assert (0 ≤ q < n) as Hqn by (apply Hin; left).
  assert (∀ x, x ∈ qs → 0 ≤ x < n) as Hin' by (intros x Hx; apply Hin; by right).
  assert (q + n ∉ (λ x, x + n) <$> qs) as Hq'.
  { intros Hel. apply list_elem_of_fmap in Hel as (x & Hx & Hel). cbv beta in Hx.
    assert (x = q) as -> by (clear -Hx; lia). done. }
  assert (q ∉ (λ x, x + n) <$> qs) as Hq''.
  { intros Hel. apply list_elem_of_fmap in Hel as (x & Hx & Hel). cbv beta in Hx.
    specialize (Hin' x Hel). lia. }
  assert (q + n ∉ qs) as Hq3 by (intros Hel; specialize (Hin' _ Hel); lia).
  assert (∀ y, y ∈ (λ x, x + n) <$> qs → 0 ≤ y) as Hpos'.
  { intros y Hel. apply list_elem_of_fmap in Hel as (x & -> & Hel). cbv beta.
    specialize (Hin' x Hel). lia. }
  assert (∀ y, y ∈ qs → 0 ≤ y) as Hpos by (intros y Hel; specialize (Hin' _ Hel); lia).
  simpl in Hlen.
  cbn [apply_gates]. rewrite <- IH by (done || lia).
  unfold apply_gate. rewrite sigma_conj, on_bits_scale, scale_scale.
  assert ((-1) ^ count_Y ls * conj_sign l = (-1) ^ count_Y (l :: ls)) as ->.
  { pose proof (count_Y_nonneg ls).
    destruct l; cbn [conj_sign count_Y]; rewrite ?Z.add_0_l, ?Z.mul_1_r; try done.
    rewrite Z.pow_add_r by lia. lia. }
  f_equal.
  rewrite on_bits_app by (simpl; lia).
  cbn [fmap list_fmap app on_bits].
  rewrite on_bits_app by lia. cbn [on_bits].
  rewrite (sigma_on_bits false l (q + n) ((λ x, x + n) <$> qs) ls) by (done || lia).
  rewrite (sigma_on_bits false l q qs ls) by (done || lia).
  rewrite (sigma_on_bits false l q ((λ x, x + n) <$> qs) ls) by (done || lia).
  by rewrite (sigma_comm false false l l q (q + n)) by lia.
Qed.
End PauliReferenceFacts.

Lemma count_char_nonneg (c : ascii) (s : string) : 0 ≤ count_char c s.
Proof. induction s as [|d s IH]; simpl; [done|]. case_bool_decide; lia. Qed.

Lemma minus_one_pow (k : Z) :
  0 ≤ k → (-1) ^ k = if bool_decide (k `rem` 2 ≠ 0) then -1 else 1.
Proof.
  intros Hk. rewrite Z.rem_mod_nonneg by lia.
  pose proof (Z.div_mod k 2 ltac:(lia)) as Hdm.
  pose proof (Z.mod_pos_bound k 2 ltac:(lia)) as Hr.
  rewrite Hdm at 1.
  rewrite Z.pow_add_r, Z.pow_mul_r by lia.
  change ((-1) ^ 2) with 1. rewrite Z.pow_1_l by lia.
  assert (k `mod` 2 = 0 ∨ k `mod` 2 = 1) as [-> | ->] by lia; by case_bool_decide.
Qed.

Lemma pauli_coeff_pow (pauli : string) : pauli_coeff pauli = (-1) ^ count_char "Y" pauli.
Proof.
  unfold pauli_coeff. symmetry. apply minus_one_pow, count_char_nonneg.
Qed.

Lemma parse_count_Y (pauli : string) (ls : list PauliReference.letter) :
  PauliReference.parse pauli = Some ls →
  count_char "Y" pauli = PauliReference.count_Y ls.
Proof.
  revert ls. induction pauli as [|c s IH]; intros ls; simpl.
  - by intros [= <-].
  - unfold PauliReference.letter_of.
    repeat case_bool_decide; subst; simpl; try done;
      destruct (PauliReference.parse s) as [ls'|]; simpl; try done;
      intros [= <-]; simpl; rewrite (IH ls' eq_refl);
      rewrite ?bool_decide_eq_true_2, ?bool_decide_eq_false_2 by done; done.
Qed.

Lemma parse_app (p p' : string) (ls ls' : list PauliReference.letter) :
  PauliReference.parse p = Some ls → PauliReference.parse p' = Some ls' →
  PauliReference.parse (p +:+ p') = Some (ls ++ ls').
Proof.
  revert ls. induction p as [|c s IH]; intros ls; simpl.
  - by intros [= <-].
  - destruct (PauliReference.letter_of c) as [l|]; simpl; [|done].
    destruct (PauliReference.parse s) as [ls0|]; simpl; [|done].
    intros [= <-] Hp'. by rewrite (IH ls0 eq_refl Hp').
Qed.

Section Pauli.
Context {densmat_t creg_t rng_t result_t : Type}.
Context `{!DensityMatrix densmat_t, !RngEngine rng_t,
          !ClassicalRegister creg_t rng_t,
          !ExperimentResult result_t creg_t, !Helpers}.
#[local] Abbreviation Sim := (Sim densmat_t creg_t rng_t result_t).

(** C7. On the code: [apply_pauli] calls the Pauli kernel of the buffer
    once, on the superoperator qubits of the list, with the string
    doubled and the coefficient [(-1)^(number of Y)]. On the reference
    semantics of the kernels: that call, on distinct qubits of the
    register, is the product of the one-qubit Pauli gates of the letters,
    each on its qubit; so the string "XY" on the qubits 0 and 1 of a
    two-qubit register is x on qubit 0 followed by y on qubit 1. *)
Theorem apply_pauli_is_signed_doubled_string :
  (∀ (qubits : reg_t) (pauli : string) (st : Sim),
     apply_pauli qubits pauli st =
       Ok tt (set_qreg
                (qreg_apply_pauli (qreg_superop_qubits (qreg_ st) qubits)
                   (pauli +:+ pauli)
                   (complex_of_int ((-1) ^ count_char "Y" pauli))) st))
  ∧ (∀ (n : Z) (qubits : reg_t) (pauli : string) (ls : list PauliReference.letter)
       (v : PauliReference.amplitudes),
       PauliReference.parse pauli = Some ls →
       length qubits = length ls →
       NoDup qubits → (∀ q, q ∈ qubits → 0 ≤ q < n) →
       PauliReference.apply_pauli (PauliReference.superop_qubits n qubits)
         (pauli +:+ pauli) (pauli_coeff pauli) v
       = Some (PauliReference.apply_gates n qubits ls v))
  ∧ (∀ v : PauliReference.amplitudes,
       PauliReference.apply_pauli (PauliReference.superop_qubits 2 [0; 1])
         ("XY" +:+ "XY") (pauli_coeff "XY") v
       = Some (PauliReference.apply_y 2 1 (PauliReference.apply_x 2 0 v))).
Proof.
  assert (∀ (n : Z) (qubits : reg_t) (pauli : string) (ls : list PauliReference.letter)
            (v : PauliReference.amplitudes),
            PauliReference.parse pauli = Some ls →
            length qubits = length ls →
            NoDup qubits → (∀ q, q ∈ qubits → 0 ≤ q < n) →
            PauliReference.apply_pauli (PauliReference.superop_qubits n qubits)
              (pauli +:+ pauli) (pauli_coeff pauli) v
            = Some (PauliReference.apply_gates n qubits ls v)) as Hgen.
  { intros n qubits pauli ls v Hparse Hlen Hnd Hin.
    unfold PauliReference.apply_pauli.
    rewrite (parse_app _ _ _ _ Hparse Hparse). simpl. f_equal.
    rewrite pauli_coeff_pow, (parse_count_Y _ _ Hparse).
    by apply PauliReferenceFacts.doubled_string_is_product. }
  split; [|split; [exact Hgen|]].
  - intros qubits pauli st. unfold apply_pauli, on_qreg, modify.
    by rewrite pauli_coeff_pow.
  - intros v. rewrite (Hgen 2 [0; 1] "XY" [PauliReference.sX; PauliReference.sY]);
      [done..| |].
    + apply NoDup_cons. split; [by intros ?%list_elem_of_singleton|apply NoDup_singleton].
    + intros q Hq. apply list_elem_of_In in Hq. simpl in Hq.
      destruct Hq as [<-|[<-|[]]]; lia.
Qed.
End Pauli.

(** C7, witness: on the recording buffer the string "XY" on the qubits 0
    and 1 reaches the kernel as "XYXY" on the bits 0, 1, 2, 3 with
    coefficient -1. *)
Lemma apply_pauli_is_signed_doubled_string_witness :
  apply_pauli [0; 1] "XY" (Double.fresh 2 [] 1%float [] [] [] [] true)
  = Ok tt (set_qreg (Double.record
                       (Double.apply_pauli_ [0; 1; 2; 3] "XYXY" (complex_of_int (-1))))
             (Double.fresh 2 [] 1%float [] [] [] [] true)).
Proof.
  destruct (apply_pauli_is_signed_doubled_string
              (densmat_t := Double.spy) (creg_t := Double.bits)
              (rng_t := Double.script) (result_t := Double.saved)) as [Hcode _].
  by rewrite Hcode.
Defined.
